(** * RAMate: the retrieval pipeline and the chat client, embedded in Rocq

    The backend functions ([validate_query], [enhance_query],
    [calculate_confidence], [chunk_text]) are the Python functions of the
    backend guide; the client functions ([handleSubmit], [handleSendMessage],
    [formatConfidence], [getConfidenceColor], [sendChatMessage]) are the
    TypeScript functions of the Next.js frontend, with [extractDocumentName],
    the health check and the status request of the API service, the status
    indicator and the feedback buttons of a message.

    Strings are sequences of characters, a character being its number: a
    Unicode code point for Python's [str] (so that [len] counts what Python's
    [len] counts), a UTF-16 code unit for a JavaScript string (so that
    [length] is JavaScript's [.length]).  Python's [int] is [Z]. *)

From Stdlib Require Import String Ascii Bool ZArith NArith QArith Qround Qabs List Lia Lqa.
From Stdlib Require Floats Uint63.
Import ListNotations.

Local Open Scope Z_scope.

(* ================================================================== *)
(** ** Text *)

Module Text.

Definition char := N.
Definition text := list char.

(** A literal of the source, character by character. *)
Definition lit (s : string) : text :=
  map N_of_ascii (list_ascii_of_string s).

(** Python's [len(s)] and JavaScript's [s.length]. *)
Definition len (s : text) : Z := Z.of_nat (length s).

(** Python's truth value of a string, and JavaScript's: the empty string is
    the only false one. *)
Definition truthy (s : text) : bool :=
  match s with [] => false | _ :: _ => true end.

Section Stripping.
Variable is_space : char -> bool.

Fixpoint lstrip_by (s : text) : text :=
  match s with
  | [] => []
  | c :: s' => if is_space c then lstrip_by s' else s
  end.

Fixpoint rstrip_by (s : text) : text :=
  match s with
  | [] => []
  | c :: s' =>
      match rstrip_by s' with
      | [] => if is_space c then [] else [c]
      | kept => c :: kept
      end
  end.

(** Both ends stripped, as [str.strip()] and [String.prototype.trim()] do. *)
Definition strip_by (s : text) : text := rstrip_by (lstrip_by s).
End Stripping.

Definition in_range (lo hi c : N) : bool := ((lo <=? c) && (c <=? hi))%N.

(** The characters [str.isspace] accepts, which are those [str.strip()]
    removes. *)
Definition py_isspace (c : char) : bool :=
  in_range 9 13 c || in_range 28 32 c || (c =? 133)%N || (c =? 160)%N
  || (c =? 5760)%N || in_range 8192 8202 c || in_range 8232 8233 c
  || (c =? 8239)%N || (c =? 8287)%N || (c =? 12288)%N.

(** ECMAScript's WhiteSpace and LineTerminator, which [trim()] removes. *)
Definition js_isspace (c : char) : bool :=
  in_range 9 13 c || (c =? 32)%N || (c =? 160)%N || (c =? 5760)%N
  || in_range 8192 8202 c || in_range 8232 8233 c || (c =? 8239)%N
  || (c =? 8287)%N || (c =? 12288)%N || (c =? 65279)%N.

Definition strip : text -> text := strip_by py_isspace.
Definition trim : text -> text := strip_by js_isspace.

(** A text with no Python space at either end: [strip()] leaves it as it
    is. *)
Definition stripped (s : text) : Prop := strip s = s.

End Text.

Import Text.
Arguments lit s%_string.

(* ================================================================== *)
(** ** Document processor: [chunk_text] (parse_pdfs.py, [PDFProcessor]) *)

Module PDFProcessor.

(** The two local variables of the loop of [chunk_text]. *)
Record loop_state := { chunks : list text; current_chunk : text }.

Definition initial : loop_state := {| chunks := []; current_chunk := [] |}.

(** [chunks.append(current_chunk.strip())] *)
Definition flush (st : loop_state) : list text :=
  chunks st ++ [strip (current_chunk st)].

(** One iteration of [for sentence in sentences]. *)
Definition loop_body (chunk_size : Z) (st : loop_state) (sentence : text)
  : loop_state :=
  if len (current_chunk st) + len sentence <? chunk_size
  then {| chunks := chunks st;
          current_chunk := current_chunk st ++ sentence ++ lit " " |}
  else {| chunks := if truthy (current_chunk st) then flush st else chunks st;
          current_chunk := sentence ++ lit " " |}.

(** The loop and the final chunk, on the sentences of the text.  The
    parameter [overlap] is in the signature and the body never reads it. *)
Definition chunk_sentences (sentences : list text) (chunk_size overlap : Z)
  : list text :=
  let st := fold_left (loop_body chunk_size) sentences initial in
  if truthy (current_chunk st) then flush st else chunks st.


Section WithSplitter.
(** [self.split_into_sentences], which the guide calls and does not show:
    any function from a text to its sentences. *)
Variable split_into_sentences : text -> list text.

Definition chunk_text (txt : text) (chunk_size overlap : Z) : list text :=
  chunk_sentences (split_into_sentences txt) chunk_size overlap.

End WithSplitter.

Section Runs.
(** [self.split_into_sentences] as a run meets it.  The guide does not show
    the method, and what it returns may depend on more than the text (the
    processor it is called on, what is installed): a run is given any list
    of sentences that [splits] allows for the text. *)
Variable splits : text -> list text -> Prop.

End Runs.

(** What the specification allows a chunk to be: within [chunk_size], or one
    whole sentence that is longer than [chunk_size], as [strip()] leaves it
    (a sentence with no space at either end is left as it is). *)
Definition within_size_or_one_sentence (sentences : list text)
  (chunk_size : Z) (chunk : text) : Prop :=
  len chunk <= chunk_size \/
  exists sentence,
    In sentence sentences /\ chunk_size < len sentence /\
    chunk = strip sentence /\
    (stripped sentence -> chunk = sentence).

(** The invariant of the loop: the chunks made so far are allowed, and so
    will the pending one be once it is stripped. *)
Definition loop_invariant (sentences : list text) (chunk_size : Z)
  (st : loop_state) : Prop :=
  Forall (within_size_or_one_sentence sentences chunk_size) (chunks st) /\
  (current_chunk st = [] \/
   within_size_or_one_sentence sentences chunk_size
     (strip (current_chunk st))).

(** Two consecutive chunks overlap when a non-empty suffix of the first, of
    at most [overlap] characters, is a prefix of the second. *)
Definition suffix_is_prefix (n : nat) (prev next : text) : bool :=
  (n <=? length prev)%nat && (n <=? length next)%nat
  && if list_eq_dec N.eq_dec (skipn (length prev - n) prev) (firstn n next)
     then true else false.

Definition share_overlap (overlap : Z) (prev next : text) : bool :=
  existsb (fun n => suffix_is_prefix n prev next)
          (seq 1 (Z.to_nat overlap)).

End PDFProcessor.

(* ================================================================== *)
(** ** Numbers

    A finite Python [float] or JavaScript [number] is the rational it
    denotes, and an operation on floats is the exact operation followed by
    the rounding [fl] to the nearest binary64 value (ties to the even
    mantissa), as IEEE 754 defines it.  The signed zeros are one zero. *)

Module Num.

(** The integer nearest to [x], a tie going to the even neighbour. *)
Definition round_half_even (x : Q) : Z :=
  let f := Qfloor x in
  match (x - inject_Z f ?= 1 # 2)%Q with
  | Lt => f
  | Gt => f + 1
  | Eq => if Z.even f then f else f + 1
  end.

(** Every finite binary64 value is an integer multiple of 2^-1074, the
    smallest subnormal: numbers are rounded after scaling by 2^1074. *)
Definition scale : Q := inject_Z (2 ^ 1074).

(** The spacing of the binary64 values around a scaled number [y]: they are
    the integers below 2^53 and the multiples of 2^k from 2^(52+k) to
    2^(53+k). *)
Definition grid_exponent (y : Q) : Z :=
  Z.max 0 (Z.log2 (Qfloor (Qabs y)) - 52).

Definition on_grid (y : Q) : Q :=
  let step := inject_Z (2 ^ grid_exponent y) in
  (inject_Z (round_half_even (y / step)) * step)%Q.

(** The binary64 value nearest to [x] (below the overflow threshold), in
    lowest terms. *)
Definition fl (x : Q) : Q := Qred (on_grid (x * scale) / scale).

(** [a * b] and [a + b] on floats. *)
Definition fmul (a b : Q) : Q := fl (a * b).
Definition fadd (a b : Q) : Q := fl (a + b).

(** Python's [round(x, ndigits)] on a float, for [ndigits >= 0]: the exact
    value of [x] is rounded half-even to [ndigits] decimals, and the float
    nearest to that decimal is returned. *)
Definition round (x : Q) (ndigits : nat) : Q :=
  fl (inject_Z (round_half_even (x * inject_Z (10 ^ Z.of_nat ndigits)))
      / inject_Z (10 ^ Z.of_nat ndigits)).

(** A JavaScript number: a finite value, an infinity or NaN. *)
Inductive number := Finite (q : Q) | PosInfinity | NegInfinity | NaN.

(** A rounded result of magnitude 2^1024 or more is an infinity. *)
Definition overflow (x : Q) : number :=
  if Qle_bool (inject_Z (2 ^ 1024)) x then PosInfinity
  else if Qle_bool x (- inject_Z (2 ^ 1024)) then NegInfinity
  else Finite x.

(** [x * k] for an integer constant [k]. *)
Definition mul (x : number) (k : Z) : number :=
  match x with
  | Finite q => overflow (fmul q (inject_Z k))
  | other => if (0 <? k)%Z then other
             else match other with
                  | PosInfinity => if (k =? 0)%Z then NaN else NegInfinity
                  | NegInfinity => if (k =? 0)%Z then NaN else PosInfinity
                  | _ => NaN
                  end
  end.

(** [Math.round]: the nearest integer, a tie going up. *)
Definition Math_round (x : number) : number :=
  match x with
  | Finite q => Finite (inject_Z (Qfloor (q + (1 # 2))))
  | other => other
  end.

(** [x >= k]; every comparison with NaN is false. *)
Definition ge (x : number) (k : Z) : bool :=
  match x with
  | Finite q => Qle_bool (inject_Z k) q
  | PosInfinity => true
  | NegInfinity | NaN => false
  end.

(** JavaScript's truth value of a number: [0] and [NaN] are false. *)
Definition truthy_number (x : number) : bool :=
  match x with
  | Finite q => negb (Qeq_bool q 0)
  | NaN => false
  | _ => true
  end.

End Num.

(** The kernel's binary64 floats, to compare [Num.fl] with. *)
Module Binary64.

(** The rational a finite float denotes, in lowest terms. *)
Definition value (f : PrimFloat.float) : option Q :=
  match FloatOps.Prim2SF f with
  | SpecFloat.S754_zero _ => Some 0%Q
  | SpecFloat.S754_finite negative m e =>
      let magnitude :=
        (inject_Z (Zpos m)
         * (if 0 <=? e then inject_Z (2 ^ e) else / inject_Z (2 ^ (- e))))%Q in
      Some (Qred (if negative then - magnitude else magnitude))
  | _ => None
  end.

(** The float of a small integer and the float quotient of two: [ratio 4 10]
    is the literal [0.4]. *)
Definition of_Z (z : Z) : PrimFloat.float := PrimFloat.of_uint63 (Uint63.of_Z z).
Definition ratio (n d : Z) : PrimFloat.float :=
  PrimFloat.div (of_Z n) (of_Z d).

End Binary64.

(* ================================================================== *)
(** ** RAG engine: query processing and confidence (rag_engine.py) *)

Module RAGEngine.

Definition validate_query (query : text) : bool :=
  if negb (truthy query) || (len (strip query) =? 0) then false
  else if len query >? 1000 then false
  else true.

(** [f"RA training {query} procedures policy"] *)
Definition enhance_query (query : text) : text :=
  lit "RA training " ++ query ++ lit " procedures policy".

Section Confidence.
(** The type of a retrieved source and the four scoring helpers, which
    the guide calls and does not show. *)
Variable source : Type.
Variable _calculate_source_relevance : text -> list source -> Q.
Variable _calculate_response_completeness : text -> Q.
Variable _calculate_consistency : text -> list source -> Q.
Variable _calculate_complexity_match : text -> text -> Q.

Definition calculate_confidence (query response : text)
  (sources : list source) : Q :=
  let relevance_score := _calculate_source_relevance query sources in
  let completeness_score := _calculate_response_completeness response in
  let consistency_score := _calculate_consistency response sources in
  let complexity_score := _calculate_complexity_match query response in
  let confidence :=
    Num.fadd
      (Num.fadd
         (Num.fadd (Num.fmul relevance_score (Num.fl (4 # 10)))
                   (Num.fmul completeness_score (Num.fl (3 # 10))))
         (Num.fmul consistency_score (Num.fl (2 # 10))))
      (Num.fmul complexity_score (Num.fl (1 # 10))) in
  Num.round confidence 3.
End Confidence.

(** The weighted sum as Python evaluates [s1 * w1 + s2 * w2 + ...], from the
    left, every product and every sum rounded. *)
Definition weighted_sum (weighted : list (Q * Q)) : Q :=
  match weighted with
  | [] => 0%Q
  | (score, weight) :: rest =>
      fold_left (fun acc sw => Num.fadd acc (Num.fmul (fst sw) (snd sw)))
                rest (Num.fmul score weight)
  end.

(** The weighted sum of the specification: each component score times its
    weight, added up, in exact arithmetic. *)
Definition exact_weighted_sum (weighted : list (Q * Q)) : Q :=
  fold_right (fun sw acc => (fst sw * snd sw + acc)%Q) 0%Q weighted.

End RAGEngine.

(* ================================================================== *)
(** ** API boundary: the chat operation *)

Module ChatEndpoint.

Inductive constraint := NonEmpty | AtMost1000.

Inductive reply :=
| ClientError (http_status : Z) (violated : constraint)
| Answer (answer : text).

Section Chat.
(** The retrieval engine (query to formatted context), the prompt builder
    and the external completion service. *)
Variable retrieve_context : text -> text.
Variable create_user_prompt : text -> text -> text.
Variable completion_service : text -> text.

(** Modelled from the spec: the handler of [POST /chat] (app.py), which is
    not among the sources.  "Validation: query must be non-empty and
    <=1000 characters, else a client-error response naming the violated
    constraint"; "returns a validation error, HTTP 400-equivalent, no call
    made to the completion service".  The state threaded through is the
    log of the prompts sent to the completion service. *)
Definition chat (query : text) (completion_calls : list text)
  : reply * list text :=
  if RAGEngine.validate_query query then
    let context := retrieve_context (RAGEngine.enhance_query query) in
    let prompt := create_user_prompt query context in
    (Answer (completion_service prompt), completion_calls ++ [prompt])
  else
    (ClientError 400
       (if len (strip query) =? 0 then NonEmpty else AtMost1000),
     completion_calls).
End Chat.

End ChatEndpoint.

(* ================================================================== *)
(** ** Frontend: lib/utils.ts *)

Module Utils.
Import Num.

Definition formatConfidence (confidence : number) : text :=
  let percentage := Math_round (mul confidence 100) in
  if ge percentage 80 then lit "High"
  else if ge percentage 60 then lit "Medium"
  else if ge percentage 40 then lit "Low"
  else lit "Very Low".

Definition getConfidenceColor (confidence : number) : text :=
  let percentage := Math_round (mul confidence 100) in
  if ge percentage 80 then lit "text-green-600"
  else if ge percentage 60 then lit "text-yellow-600"
  else if ge percentage 40 then lit "text-orange-600"
  else lit "text-red-600".

End Utils.

(* ================================================================== *)
(** ** Frontend: components/ChatInput.tsx *)

Module ChatInput.

(** The props the handler reads. *)
Record props := { isLoading : bool; disabled : bool }.

(** What a call of [handleSubmit] does: the calls of the [onSendMessage]
    prop, in order, and the [message] state afterwards. *)
Record effects := { onSendMessage_calls : list text; message_after : text }.

Definition handleSubmit (p : props) (message : text) : effects :=
  let trimmedMessage := trim message in
  if negb (truthy trimmedMessage) || isLoading p || disabled p
  then {| onSendMessage_calls := []; message_after := message |}
  else {| onSendMessage_calls := [trimmedMessage]; message_after := [] |}.

End ChatInput.

(* ================================================================== *)
(** ** Frontend: lib/api.ts *)

Module Api.

Inductive Status := success | error.

(** The [data] of a [ChatResponse]. *)
Record ResponseData := {
  answer : text;
  sources : list text;
  links : list text;
  confidence : Num.number;
  query : text;
  timestamp : text
}.

Record ChatResponse := {
  status : Status;
  data : option ResponseData;
  message : option text;
  response_timestamp : text
}.

(** A body as axios hands it over ([response.data] is untyped): what the
    JSON of the backend decodes to, the empty string for an empty body,
    [undefined] when there is none. *)
Inductive body :=
| Undefined
| Null
| Boolean (b : bool)
| Number (n : Num.number)
| Str (s : text)
| Object (r : ChatResponse).

(** JavaScript's truth value, which [if (error.response?.data)] tests. *)
Definition truthy_body (b : body) : bool :=
  match b with
  | Undefined | Null => false
  | Boolean b => b
  | Number n => Num.truthy_number n
  | Str s => truthy s
  | Object _ => true
  end.

Record AxiosResponse := { http_status : Z; response_data : body }.

(** What [axiosInstance.post] rejects with: an axios error, with the
    response when the backend answered, or anything else. *)
Inductive failure :=
| AxiosError (response : option AxiosResponse)
| OtherError.

Definition isAxiosError (e : failure) : bool :=
  match e with AxiosError _ => true | OtherError => false end.

(** [error.response?.data] *)
Definition response_data_of (e : failure) : body :=
  match e with
  | AxiosError (Some r) => response_data r
  | _ => Undefined
  end.

(** A settled promise. *)
Inductive settled (A : Type) :=
| Fulfilled (a : A)
| RejectedWith (e : failure).
Arguments Fulfilled {A} a.
Arguments RejectedWith {A} e.

(** What a call returns: a value, or [new Error(message)] thrown. *)
Inductive result (A : Type) :=
| Returns (a : A)
| Throws (error_message : text).
Arguments Returns {A} a.
Arguments Throws {A} error_message.

(** [sendChatMessage], on the way the [post] of the request settles. *)
Definition sendChatMessage (post : settled AxiosResponse) : result body :=
  match post with
  | Fulfilled response => Returns (response_data response)
  | RejectedWith e =>
      if isAxiosError e && truthy_body (response_data_of e)
      then Returns (response_data_of e)
      else Throws (lit "Failed to send chat message")
  end.

End Api.

(* ================================================================== *)
(** ** Frontend: app/page.tsx *)

Module Page.
Import Api.

Record ChatMessage := {
  id : text;
  query : text;
  answer : text;
  sources : list text;
  links : list text;
  confidence : Num.number;
  timestamp : text;
  isLoading : option bool
}.

(** The state of the [Home] component that the handler reads and sets. *)
Module Home.
Record state := {
  messages : list ChatMessage;
  isLoading : bool;
  apiAvailable : bool
}.
End Home.
Import Home.

(** The clock at one point of the run: [Date.now().toString()] and
    [new Date().toISOString()]. *)
Record clock := { now : text; iso : text }.

(** How [await apiService.sendChatMessage(...)] ends: with the value
    returned, which is the body as it came and need not be a [ChatResponse],
    or with the error thrown. *)
Inductive awaited :=
| Resolved (response : body)
| Threw.

(** The page: rendered with a state, or unmounted.  The updaters passed to
    [setMessages] run when the page is rendered again, outside the [try] of
    the handler, and no error boundary is around the page: an error thrown
    in an updater unmounts it. *)
Inductive page :=
| Mounted (st : state)
| Unmounted.

(** The values on which reading a property throws a TypeError. *)
Definition nullish (b : body) : bool :=
  match b with
  | Undefined | Null => true
  | _ => false
  end.

(** The outcomes of the request on which [response.status] throws. *)
Definition unmounts (r : awaited) : bool :=
  match r with
  | Resolved response => nullish response
  | Threw => false
  end.

Definition zero : Num.number := Num.Finite 0.

Definition loadingMessage (query : text) (c : clock) : ChatMessage :=
  {| id := now c;
     query := query;
     answer := [];
     sources := [];
     links := [];
     confidence := zero;
     timestamp := iso c;
     Page.isLoading := Some true |}.

(** [a || b] on an optional string. *)
Definition or_else (a : option text) (b : text) : text :=
  match a with
  | Some s => if truthy s then s else b
  | None => b
  end.

Definition newMessage (d : ResponseData) (c : clock) : ChatMessage :=
  {| id := now c;
     query := Api.query d;
     answer := Api.answer d;
     sources := Api.sources d;
     links := Api.links d;
     confidence := Api.confidence d;
     timestamp := Api.timestamp d;
     Page.isLoading := None |}.

Definition errorMessage (query answer : text) (c : clock) : ChatMessage :=
  {| id := now c;
     query := query;
     answer := answer;
     sources := [];
     links := [];
     confidence := zero;
     timestamp := iso c;
     Page.isLoading := None |}.

Definition text_eqb (a b : text) : bool :=
  if list_eq_dec N.eq_dec a b then true else false.

(** [prev.filter((msg) => msg.id !== loadingMessageId)] *)
Definition without (loadingMessageId : text) (prev : list ChatMessage)
  : list ChatMessage :=
  filter (fun msg => negb (text_eqb (id msg) loadingMessageId))
         prev.

(** The handler up to its [await]: the loading message is appended and
    [isLoading] is set. *)
Definition before_await (st : state) (query : text) (c : clock) : state :=
  {| messages := messages st ++ [loadingMessage query c];
     isLoading := true;
     apiAvailable := apiAvailable st |}.

(** What the page says when the backend gave no message of its own. *)
Definition sorry_processing : text :=
  lit "Sorry, I encountered an error processing your request. Please try again.".

(** The handler after its [await], on the state as it is then: the [try]
    body's update, or the [catch] block's, and then the [finally] block.
    [response.status] and [response.message] are [undefined] on a boolean,
    a number or a string, and throw on [null] and [undefined]. *)
Definition after_await (loadingMessageId query : text) (r : awaited)
  (c : clock) (st : state) : page :=
  match r with
  | Resolved response =>
      if nullish response then Unmounted
      else
        let filtered := without loadingMessageId (messages st) in
        Mounted
          {| messages :=
               match response with
               | Object response =>
                   match status response, data response with
                   | success, Some d => filtered ++ [newMessage d c]
                   | _, _ =>
                       filtered ++
                       [errorMessage query
                          (or_else (message response) sorry_processing) c]
                   end
               | _ => filtered ++ [errorMessage query sorry_processing c]
               end;
             isLoading := false;
             apiAvailable := apiAvailable st |}
  | Threw =>
      let filtered := without loadingMessageId (messages st) in
      Mounted
        {| messages :=
             filtered ++
             [errorMessage query
                (lit "Sorry, I couldn't connect to the RAMate API. Please check if the backend server is running and try again.")
                c];
           isLoading := false;
           apiAvailable := false |}
  end.

(** [handleSendMessage(query)]: [start] is the clock when the loading
    message is made, [r] how the request ends, [finish] the clock then. *)
Definition handleSendMessage (st : state) (query : text) (start : clock)
  (r : awaited) (finish : clock) : page :=
  if negb (truthy (trim query)) || isLoading st then Mounted st
  else after_await (now start) query r finish (before_await st query start).

(** The two branches in which the request failed: the [else] of the updater
    and the [catch] block. *)
Definition failed (r : awaited) : bool :=
  match r with
  | Resolved (Object response) =>
      match status response, data response with
      | success, Some _ => false
      | _, _ => true
      end
  | Resolved _ => true
  | Threw => true
  end.

End Page.

(* ================================================================== *)
(** ** Chunks as groups of sentences *)

Module Chunking.

(** What [current_chunk] holds after the sentences of a group: each sentence
    followed by a space. *)
Definition joined (group : list text) : text :=
  concat (map (fun sentence => sentence ++ lit " ") group).

(** The chunk a group of sentences becomes. *)
Definition chunk_of (group : list text) : text := strip (joined group).

(** Every sentence of a group but its first fitted when it was added: the
    pending text and the sentence were shorter than [chunk_size]. *)
Definition each_fitted (chunk_size : Z) (group : list text) : Prop :=
  forall before sentence after,
    group = before ++ sentence :: after -> before <> [] ->
    len (joined before) + len sentence < chunk_size.

(** No group could take the first sentence of the next. *)
Definition none_fits_next (chunk_size : Z) (groups : list (list text))
  : Prop :=
  forall earlier group sentence rest later,
    groups = earlier ++ group :: (sentence :: rest) :: later ->
    chunk_size <= len (joined group) + len sentence.

(** The state of the loop against the groups made so far, the pending one
    last. *)
Definition in_step (st : PDFProcessor.loop_state)
  (groups : list (list text)) : Prop :=
  (groups = [] /\ PDFProcessor.chunks st = [] /\
   PDFProcessor.current_chunk st = []) \/
  exists made pending,
    groups = made ++ [pending] /\ pending <> [] /\
    PDFProcessor.chunks st = map chunk_of made /\
    PDFProcessor.current_chunk st = joined pending.

End Chunking.

(* ================================================================== *)
(** ** JavaScript string methods *)

Module JsString.

(** A text begins and ends with a character that is no space, or is
    empty. *)
Definition clean_ends (is_space : char -> bool) (s : text) : Prop :=
  match s with
  | [] => True
  | c :: _ => is_space c = false /\ is_space (last s c) = false
  end.

(** [s.split(sep)] for a separator of one character: the pieces between the
    separators, of which there is always one at least. *)
Fixpoint split_on (sep : char) (s : text) : list text :=
  match s with
  | [] => [[]]
  | c :: s' =>
      if (c =? sep)%N then [] :: split_on sep s'
      else match split_on sep s' with
           | piece :: pieces => (c :: piece) :: pieces
           | [] => [[c]]
           end
  end.

(** [s.startsWith(pattern)] *)
Fixpoint starts_with (pattern s : text) : bool :=
  match pattern, s with
  | [], _ => true
  | _ :: _, [] => false
  | p :: pattern', c :: s' => (p =? c)%N && starts_with pattern' s'
  end.

(** [s.replace(pattern, replacement)] with a string pattern: the first
    occurrence only. *)
Fixpoint replace_first (pattern replacement s : text) : text :=
  if starts_with pattern s then replacement ++ skipn (length pattern) s
  else match s with
       | [] => []
       | c :: s' => c :: replace_first pattern replacement s'
       end.

End JsString.

(* ================================================================== *)
(** ** Frontend: lib/utils.ts, the document name of a link *)

Module DocumentName.

Definition slash : char := 47%N.
Definition underscore : char := 95%N.
Definition hyphen : char := 45%N.
Definition space : char := 32%N.
Definition dot : char := 46%N.

(** [s.replace(/[_-]/g, ' ')] *)
Definition spaces_for_separators (s : text) : text :=
  map (fun c => if (c =? underscore)%N || (c =? hyphen)%N then space else c) s.

(** [extractDocumentName]; on a string nothing in the [try] block throws. *)
Definition extractDocumentName (link : text) : text :=
  let parts := JsString.split_on slash link in
  let filename := last parts [] in
  spaces_for_separators (JsString.replace_first (lit ".pdf") [] filename).

End DocumentName.

(* ================================================================== *)
(** ** The order of the confidence labels *)

Module ConfidenceBands.

(** The labels of [formatConfidence] from the lowest to the highest. *)
Definition label_rank (label : text) : nat :=
  if Page.text_eqb label (lit "High") then 3
  else if Page.text_eqb label (lit "Medium") then 2
  else if Page.text_eqb label (lit "Low") then 1
  else 0.

(** The order of JavaScript numbers, NaN apart. *)
Definition number_le (x y : Num.number) : Prop :=
  match x, y with
  | Num.NaN, _ | _, Num.NaN => False
  | Num.NegInfinity, _ => True
  | _, Num.PosInfinity => True
  | Num.Finite a, Num.Finite b => (a <= b)%Q
  | _, _ => False
  end.

End ConfidenceBands.

(* ================================================================== *)
(** ** Frontend: lib/api.ts, the other requests *)

Module ApiService.
Import Api.

(** The [data] of a [SystemStatus]; [total_documents] is a JSON number. *)
Record StatusData := {
  vector_store_status : text;
  total_documents : Q;
  source_files : list text;
  openrouter_configured : bool;
  embedding_method : text
}.

Record SystemStatus := {
  status : Status;
  data : option StatusData;
  timestamp : text
}.

Inductive Rating := thumbs_up | thumbs_down.

Record FeedbackData := {
  query : text;
  answer : text;
  rating : Rating;
  comment : text
}.

(** [healthCheck] and [getSystemStatus] on the way their request settles:
    the body of the response, or one fixed error whatever the failure
    carried. *)
Definition healthCheck {A : Type} (get : settled A) : result A :=
  match get with
  | Fulfilled response_data => Returns response_data
  | RejectedWith _ => Throws (lit "Failed to connect to RAMate API")
  end.

(** A body as axios hands it over when the JSON is to be an [A]: axios does
    not check it, and it may be [undefined], [null], a boolean, a number or
    a string as well. *)
Inductive received (A : Type) :=
| NoValue
| NullValue
| BooleanValue (b : bool)
| NumberValue (n : Num.number)
| StringValue (s : text)
| ObjectValue (a : A).
Arguments NoValue {A}.
Arguments NullValue {A}.
Arguments BooleanValue {A} b.
Arguments NumberValue {A} n.
Arguments StringValue {A} s.
Arguments ObjectValue {A} a.

(** JavaScript's truth value. *)
Definition truthy_received {A : Type} (v : received A) : bool :=
  match v with
  | NoValue | NullValue => false
  | BooleanValue b => b
  | NumberValue n => Num.truthy_number n
  | StringValue s => truthy s
  | ObjectValue _ => true
  end.

Definition getSystemStatus (get : settled (received SystemStatus))
  : result (received SystemStatus) :=
  match get with
  | Fulfilled response_data => Returns response_data
  | RejectedWith _ => Throws (lit "Failed to get system status")
  end.

(** [isApiAvailable]: whether [healthCheck] returned. *)
Definition isApiAvailable {A : Type} (get : settled A) : bool :=
  match healthCheck get with
  | Returns _ => true
  | Throws _ => false
  end.

End ApiService.

(* ================================================================== *)
(** ** Frontend: app/page.tsx, the health check and the chat input *)

Module HomePage.
Import Page.

(** [checkApiAvailability], run once when the page is mounted. *)
Definition checkApiAvailability {A : Type} (get : Api.settled A)
  (st : Home.state) : Home.state :=
  {| Home.messages := Home.messages st;
     Home.isLoading := Home.isLoading st;
     Home.apiAvailable := ApiService.isApiAvailable get |}.

(** The props the page renders its [ChatInput] with:
    [isLoading={isLoading} disabled={!apiAvailable}]. *)
Definition chatInputProps (st : Home.state) : ChatInput.props :=
  {| ChatInput.isLoading := Home.isLoading st;
     ChatInput.disabled := negb (Home.apiAvailable st) |}.



(** A handler on a mounted page; an unmounted page has none. *)
Definition on_mounted (f : Home.state -> page) (p : page) : page :=
  match p with
  | Mounted st => f st
  | Unmounted => Unmounted
  end.

(** A submit of the chat input on the page: [handleSubmit] with the props of
    the page, its [onSendMessage] being [handleSendMessage]; [r] is how the
    request ends if one is made. *)
Definition submit (st : Home.state) (message : text) (start : clock)
  (r : awaited) (finish : clock) : page :=
  fold_left (fun p query =>
               on_mounted
                 (fun st' => handleSendMessage st' query start r finish) p)
            (ChatInput.onSendMessage_calls
               (ChatInput.handleSubmit (chatInputProps st) message))
            (Mounted st).

(** The state the page is mounted with: [useState([])], [useState(false)]
    and [useState(true)]. *)
Definition initial : Home.state :=
  {| Home.messages := []; Home.isLoading := false;
     Home.apiAvailable := true |}.

(** The page in use: what is shown; the loading message id and the query of
    the [handleSendMessage] that is waiting for its request, if one is;
    whether the health check of the mount has yet to settle; and the
    queries passed to [sendChatMessage] so far. *)
Record session := {
  shown : page;
  pending : option (text * text);
  checking : bool;
  requests : list text
}.

(** The page as it is mounted: the health check has been started. *)
Definition mounted : session :=
  {| shown := Mounted initial; pending := None; checking := true;
     requests := [] |}.

(** What happens to the page: a submit of the input, the chat request
    settling, the health check settling.  They come in any order: the
    health check may settle before the first submit, between two, while a
    request is pending, or never. *)
Inductive event :=
| Submit (message : text) (start : clock)
| ChatSettled (r : awaited) (finish : clock)
| HealthCheckSettled (get : Api.settled Api.body).

(** One event.  A submit runs [handleSubmit] and, on what it sends,
    [handleSendMessage] up to its [await]; the chat request settling runs
    the rest of the handler on the state as it is then; the health check
    settling runs the rest of [checkApiAvailability]. *)
Definition react (s : session) (e : event) : session :=
  match shown s with
  | Unmounted => s
  | Mounted st =>
      match e with
      | Submit message start =>
          match ChatInput.onSendMessage_calls
                  (ChatInput.handleSubmit (chatInputProps st) message) with
          | query :: _ =>
              if negb (truthy (trim query)) || Home.isLoading st then s
              else {| shown := Mounted (before_await st query start);
                      pending := Some (now start, query);
                      checking := checking s;
                      requests := requests s ++ [query] |}
          | [] => s
          end
      | ChatSettled r finish =>
          match pending s with
          | Some (loadingMessageId, query) =>
              {| shown := after_await loadingMessageId query r finish st;
                 pending := None;
                 checking := checking s;
                 requests := requests s |}
          | None => s
          end
      | HealthCheckSettled get =>
          if checking s
          then {| shown := Mounted (checkApiAvailability get st);
                  pending := pending s;
                  checking := false;
                  requests := requests s |}
          else s
      end
  end.

Definition run_from (s : session) (events : list event) : session :=
  fold_left react events s.

(** The page after a sequence of events from its mount. *)
Definition run (events : list event) : session := run_from mounted events.

(** What is to hold of the page after the events [seen]: [isLoading] is set
    exactly while a request is pending; the list then ends in the loading
    message of that request, and no other message is a loading message;
    there is one message at most for each request sent and one request at
    most for each event; the API is marked available only while the health
    check has not settled or if it succeeded; and the page is unmounted only
    after a chat request returned [null] or [undefined]. *)
Definition invariant (seen : list event) (s : session) : Prop :=
  (length (requests s) <= length seen)%nat /\
  match shown s with
  | Mounted st =>
      match pending s with
      | None =>
          Home.isLoading st = false /\
          Forall (fun m => Page.isLoading m = None) (Home.messages st)
      | Some (loadingMessageId, query) =>
          Home.isLoading st = true /\
          exists earlier c,
            Home.messages st = earlier ++ [loadingMessage query c] /\
            loadingMessageId = now c /\
            Forall (fun m => Page.isLoading m = None) earlier
      end /\
      (length (Home.messages st) <= length (requests s))%nat /\
      (Home.apiAvailable st = true ->
       checking s = true \/
       exists a, In (HealthCheckSettled (Api.Fulfilled a)) seen)
  | Unmounted =>
      exists response finish,
        In (ChatSettled (Resolved response) finish) seen /\
        nullish response = true
  end.

End HomePage.

(* ================================================================== *)
(** ** Frontend: components/StatusIndicator.tsx *)

Module StatusIndicator.
Import ApiService.

(** [status] holds what [getSystemStatus] returned, as it came, or [null];
    [error] a message or [null]. *)
Record state := {
  status : received SystemStatus;
  isLoading : bool;
  error : option text
}.

(** [checkStatus] up to its [await]. *)
Definition checking (st : state) : state :=
  {| status := status st; isLoading := true; error := error st |}.

(** [checkStatus] after its [await], on the way the request settled. *)
Definition checkStatus (get : Api.settled (received SystemStatus))
  (st : state) : state :=
  match getSystemStatus get with
  | Api.Returns statusData =>
      {| status := statusData; isLoading := false; error := None |}
  | Api.Throws error_message =>
      {| status := NullValue; isLoading := false;
         error := Some error_message |}
  end.

(** What the component shows. *)
Inductive view :=
| CheckingSystemStatus
| ApiOffline
| StatusUnknown
| SystemOnline (d : StatusData)
| LimitedFunctionality (d : StatusData).

(** The truth value of [error]: a non-empty string. *)
Definition truthy_error (e : option text) : bool :=
  match e with Some message => truthy message | None => false end.

(** [status?.data] is [undefined] on everything but an object. *)
Definition render (st : state) : view :=
  if isLoading st && negb (truthy_received (status st))
  then CheckingSystemStatus
  else if truthy_error (error st) then ApiOffline
  else match status st with
       | ObjectValue {| data := Some d |} =>
           let isHealthy :=
             Page.text_eqb (vector_store_status d) (lit "healthy")
             && negb (Qle_bool (total_documents d) 0) in
           if isHealthy then SystemOnline d else LimitedFunctionality d
       | _ => StatusUnknown
       end.

End StatusIndicator.

(* ================================================================== *)
(** ** Frontend: components/Message.tsx, the feedback buttons *)

Module MessageFeedback.
Import ApiService.

(** The props the handlers read. *)
Record props := { query : text; answer : text }.

(** The state of the component, the calls of [apiService.sendFeedback] made
    so far, the number of them not yet settled, and the number of pending
    three-second timers. *)
Record state := {
  feedback : option Rating;
  feedbackSent : bool;
  showFeedbackForm : bool;
  feedbackComment : text;
  requests : list FeedbackData;
  in_flight : nat;
  timers : nat
}.

Definition initial : state :=
  {| feedback := None; feedbackSent := false; showFeedbackForm := false;
     feedbackComment := []; requests := []; in_flight := 0; timers := 0 |}.

(** [sendFeedback(rating, comment)] up to its [await];
    [comment || ''] is the comment itself or the empty string. *)
Definition sendFeedback_start (p : props) (r : Rating)
  (comment_or_undefined : option text) (st : state) : state :=
  let feedbackData :=
    {| ApiService.query := query p; ApiService.answer := answer p;
       rating := r;
       comment := match comment_or_undefined with
                  | Some c => if truthy c then c else []
                  | None => []
                  end |} in
  {| feedback := feedback st; feedbackSent := feedbackSent st;
     showFeedbackForm := showFeedbackForm st;
     feedbackComment := feedbackComment st;
     requests := requests st ++ [feedbackData];
     in_flight := S (in_flight st); timers := timers st |}.

(** [sendFeedback] after its [await]: on success the note is shown, the form
    closed and the timer set; the [catch] block only logs. *)
Definition sendFeedback_settled (ok : bool) (st : state) : state :=
  if ok then
    {| feedback := feedback st; feedbackSent := true;
       showFeedbackForm := false;
       feedbackComment := feedbackComment st;
       requests := requests st;
       in_flight := pred (in_flight st); timers := S (timers st) |}
  else
    {| feedback := feedback st; feedbackSent := feedbackSent st;
       showFeedbackForm := showFeedbackForm st;
       feedbackComment := feedbackComment st;
       requests := requests st;
       in_flight := pred (in_flight st); timers := timers st |}.

(** [handleFeedback(rating)] up to its [await]. *)
Definition handleFeedback (p : props) (r : Rating) (st : state) : state :=
  if feedbackSent st then st
  else
    let st1 :=
      {| feedback := Some r; feedbackSent := feedbackSent st;
         showFeedbackForm := showFeedbackForm st;
         feedbackComment := feedbackComment st;
         requests := requests st;
         in_flight := in_flight st; timers := timers st |} in
    match r with
    | thumbs_down =>
        {| feedback := feedback st1; feedbackSent := feedbackSent st1;
           showFeedbackForm := true;
           feedbackComment := feedbackComment st1;
           requests := requests st1;
           in_flight := in_flight st1; timers := timers st1 |}
    | thumbs_up => sendFeedback_start p r None st1
    end.

(** What can happen to the component: a click on a rating button, the three
    controls of the form, a request settling, a timer firing. *)
Inductive event :=
| ClickRating (r : Rating)
| TypeComment (c : text)
| ClickCancel
| ClickSendFeedback
| FeedbackSettled (ok : bool)
| TimerFired.

(** Whether the event can happen: the rating buttons are disabled while the
    note is shown, the form's controls exist while the form is shown, a
    request settles if one is in flight and a timer fires if one is set. *)
Definition possible (st : state) (e : event) : bool :=
  match e with
  | ClickRating _ => negb (feedbackSent st)
  | TypeComment _ | ClickCancel | ClickSendFeedback => showFeedbackForm st
  | FeedbackSettled _ => (0 <? in_flight st)%nat
  | TimerFired => (0 <? timers st)%nat
  end.

Definition react (p : props) (st : state) (e : event) : state :=
  if negb (possible st e) then st
  else match e with
       | ClickRating r => handleFeedback p r st
       | TypeComment c =>
           {| feedback := feedback st; feedbackSent := feedbackSent st;
              showFeedbackForm := showFeedbackForm st;
              feedbackComment := c;
              requests := requests st;
              in_flight := in_flight st; timers := timers st |}
       | ClickCancel =>
           {| feedback := feedback st; feedbackSent := feedbackSent st;
              showFeedbackForm := false;
              feedbackComment := feedbackComment st;
              requests := requests st;
              in_flight := in_flight st; timers := timers st |}
       | ClickSendFeedback =>
           sendFeedback_start p thumbs_down (Some (feedbackComment st)) st
       | FeedbackSettled ok => sendFeedback_settled ok st
       | TimerFired =>
           {| feedback := feedback st; feedbackSent := false;
              showFeedbackForm := showFeedbackForm st;
              feedbackComment := feedbackComment st;
              requests := requests st;
              in_flight := in_flight st; timers := pred (timers st) |}
       end.

(** The component after a sequence of events, from its initial state. *)
Definition run (p : props) (events : list event) : state :=
  fold_left (react p) events initial.

(** What is to hold of the component whatever has happened to it: every
    request carries the query and the answer of the message, a thumbs-up
    request an empty comment; while the note of thanks is shown the form is
    closed and a timer is pending; no more requests are in flight than were
    made; the form is open or a request was made only after a rating was
    chosen. *)
Definition invariant (p : props) (st : state) : Prop :=
  Forall (fun f => ApiService.query f = query p /\
                   ApiService.answer f = answer p /\
                   (rating f = thumbs_up -> comment f = []))
         (requests st) /\
  (feedbackSent st = true ->
   showFeedbackForm st = false /\ (0 < timers st)%nat) /\
  (in_flight st <= length (requests st))%nat /\
  (showFeedbackForm st = true \/ requests st <> [] -> feedback st <> None).

End MessageFeedback.

(* ================================================================== *)
(** * Properties *)

(** ** Stripping *)

Section StrippingFacts.
Variable is_space : char -> bool.

Lemma lstrip_by_length (s : text) :
  (length (lstrip_by is_space s) <= length s)%nat.
Proof.
  induction s as [|c s IH]; simpl; [lia|].
  destruct (is_space c); simpl; lia.
Qed.

Lemma rstrip_by_length (s : text) :
  (length (rstrip_by is_space s) <= length s)%nat.
Proof.
  induction s as [|c s IH]; simpl; [lia|].
  destruct (rstrip_by is_space s); [destruct (is_space c)|]; simpl in *; lia.
Qed.

Lemma strip_by_length (s : text) :
  (length (strip_by is_space s) <= length s)%nat.
Proof.
  unfold strip_by.
  pose proof (rstrip_by_length (lstrip_by is_space s)).
  pose proof (lstrip_by_length s). lia.
Qed.

(** A space put after the text is stripped with the rest. *)
Lemma lstrip_by_snoc (s : text) (c : char) :
  is_space c = true ->
  lstrip_by is_space (s ++ [c]) =
    match lstrip_by is_space s with
    | [] => []
    | kept => kept ++ [c]
    end.
Proof.
  intros Hc. induction s as [|d s IH]; simpl.
  - now rewrite Hc.
  - destruct (is_space d); [exact IH | reflexivity].
Qed.

Lemma rstrip_by_snoc (s : text) (c : char) :
  is_space c = true ->
  rstrip_by is_space (s ++ [c]) = rstrip_by is_space s.
Proof.
  intros Hc. induction s as [|d s IH]; simpl.
  - now rewrite Hc.
  - now rewrite IH.
Qed.

Lemma strip_by_snoc (s : text) (c : char) :
  is_space c = true ->
  strip_by is_space (s ++ [c]) = strip_by is_space s.
Proof.
  intros Hc. unfold strip_by. rewrite lstrip_by_snoc by exact Hc.
  destruct (lstrip_by is_space s) as [|d kept] eqn:E.
  - reflexivity.
  - now apply rstrip_by_snoc.
Qed.

End StrippingFacts.

Lemma len_app (a b : text) : len (a ++ b) = len a + len b.
Proof. unfold len. rewrite length_app. lia. Qed.

Lemma len_nonneg (a : text) : 0 <= len a.
Proof. unfold len. lia. Qed.

Lemma len_strip (s : text) : len (strip s) <= len s.
Proof. unfold len, strip. pose proof (strip_by_length py_isspace s). lia. Qed.

Lemma strip_sentence_space (s : text) : strip (s ++ lit " ") = strip s.
Proof. apply strip_by_snoc. reflexivity. Qed.

Lemma truthy_true (s : text) : truthy s = true <-> s <> [].
Proof. destruct s; simpl; split; congruence. Qed.

Lemma truthy_false (s : text) : truthy s = false <-> s = [].
Proof. destruct s; simpl; split; congruence. Qed.

(** ** Chunking *)

Section ChunkingFacts.
Import PDFProcessor.

Variable sentences : list text.
Variable chunk_size : Z.

Let allowed := within_size_or_one_sentence sentences chunk_size.
Let loop_invariant := loop_invariant sentences chunk_size.

Lemma single_sentence_allowed (sentence : text) :
  In sentence sentences -> allowed (strip (sentence ++ lit " ")).
Proof.
  intros Hin. rewrite strip_sentence_space.
  destruct (Z_le_gt_dec (len sentence) chunk_size) as [Hle|Hgt].
  - left. pose proof (len_strip sentence). lia.
  - right. exists sentence. repeat split; try assumption; try lia.
    intros Hs. exact Hs.
Qed.

Lemma loop_body_keeps_invariant (st : loop_state) (sentence : text) :
  In sentence sentences ->
  loop_invariant st -> loop_invariant (loop_body chunk_size st sentence).
Proof.
  intros Hin [Hchunks Hcur]. unfold loop_body.
  destruct (Z.ltb_spec (len (current_chunk st) + len sentence) chunk_size)
    as [Hfit|Hover]; split; simpl.
  - exact Hchunks.
  - right. left.
    pose proof (len_strip (current_chunk st ++ sentence ++ lit " ")) as Hs.
    rewrite !len_app in Hs. change (len (lit " ")) with 1 in Hs. lia.
  - destruct (truthy (current_chunk st)) eqn:Ht; [|exact Hchunks].
    unfold flush. apply Forall_app. split; [exact Hchunks|].
    constructor; [|constructor].
    destruct Hcur as [Hnil|Hok]; [|exact Hok].
    rewrite Hnil in Ht. discriminate.
  - right. now apply single_sentence_allowed.
Qed.

Lemma loop_keeps_invariant (rest : list text) :
  forall st,
    incl rest sentences ->
    loop_invariant st ->
    loop_invariant (fold_left (loop_body chunk_size) rest st).
Proof.
  induction rest as [|sentence rest IH]; intros st Hincl Hinv; simpl.
  - exact Hinv.
  - apply IH.
    + intros x Hx. apply Hincl. now right.
    + apply loop_body_keeps_invariant; [|exact Hinv].
      apply Hincl. now left.
Qed.

Lemma chunk_sentences_allowed (overlap : Z) :
  Forall allowed (chunk_sentences sentences chunk_size overlap).
Proof.
  unfold chunk_sentences.
  destruct (loop_keeps_invariant sentences initial) as [Hchunks Hcur].
  - apply incl_refl.
  - split; [constructor | now left].
  - destruct (truthy _) eqn:Ht; [|exact Hchunks].
    unfold flush. apply Forall_app. split; [exact Hchunks|].
    constructor; [|constructor].
    destruct Hcur as [Hnil|Hok]; [|exact Hok].
    rewrite Hnil in Ht. discriminate.
Qed.


End ChunkingFacts.

(** Every chunk [chunk_text] produces is at most [chunk_size] characters long,
    or it is one sentence that is longer than [chunk_size] as [strip()]
    returns it, which is the sentence itself when it has no space at either
    end. *)
Lemma chunk_text_chunks_allowed :
  forall (split_into_sentences : text -> list text) (txt : text)
         (chunk_size overlap : Z),
    Forall
      (PDFProcessor.within_size_or_one_sentence (split_into_sentences txt)
         chunk_size)
      (PDFProcessor.chunk_text split_into_sentences txt chunk_size overlap).
Proof.
  intros split_into_sentences txt chunk_size overlap.
  unfold PDFProcessor.chunk_text.
  exact (chunk_sentences_allowed (split_into_sentences txt) chunk_size overlap).
Qed.

(** C2, as the claim words it, fails: a sentence longer than [chunk_size] is
    not kept unmodified when it begins or ends with whitespace.  With
    [chunk_size = 12] the sentence " Evacuate immediately. " becomes the
    chunk "Evacuate immediately.", which is longer than 12 characters and is
    not the sentence. *)
Lemma chunk_text_strips_an_oversized_sentence :
  ~ (forall (split_into_sentences : text -> list text) (txt : text)
            (chunk_size overlap : Z),
       Forall
         (fun chunk =>
            len chunk <= chunk_size \/
            exists sentence,
              In sentence (split_into_sentences txt) /\
              chunk_size < len sentence /\
              chunk = sentence)
         (PDFProcessor.chunk_text split_into_sentences txt chunk_size
            overlap)).
Proof.
  intros Hclaim.
  specialize (Hclaim (fun _ => [lit " Evacuate immediately. "])
                     (lit " Evacuate immediately. ") 12 100).
  assert (Hchunks :
            PDFProcessor.chunk_text
              (fun _ => [lit " Evacuate immediately. "])
              (lit " Evacuate immediately. ") 12 100
            = [lit "Evacuate immediately."])
    by (vm_compute; reflexivity).
  rewrite Hchunks in Hclaim.
  apply Forall_inv in Hclaim.
  destruct Hclaim as [Hshort|[sentence [Hin [_ Heq]]]].
  - vm_compute in Hshort. now apply Hshort.
  - destruct Hin as [Hin|[]]. rewrite <- Hin in Heq. discriminate Heq.
Qed.

(** Both cases occur: with [chunk_size = 12] the first two sentences
    share a chunk of 11 characters and the third, 21 characters long, is a
    chunk of its own. *)
Example chunk_text_both_cases :
  PDFProcessor.chunk_text
    (fun _ => [lit "Stop."; lit "Look."; lit "Evacuate immediately."])
    (lit "Stop. Look. Evacuate immediately.") 12 100
  = [lit "Stop. Look."; lit "Evacuate immediately."].
Proof. vm_compute. reflexivity. Qed.

(** [chunk_text] never reads [overlap]. *)
Lemma chunk_text_ignores_overlap :
  forall (split_into_sentences : text -> list text) (txt : text)
         (chunk_size overlap overlap' : Z),
    PDFProcessor.chunk_text split_into_sentences txt chunk_size overlap =
    PDFProcessor.chunk_text split_into_sentences txt chunk_size overlap'.
Proof. intros. unfold PDFProcessor.chunk_text, PDFProcessor.chunk_sentences. reflexivity. Qed.

(** C3, at a text of two sentences.  With [chunk_size = 12] and the default
    [overlap = 100], the two sentences "Stay calm." and "Leave now." become
    two chunks, and the second chunk starts with no part of the first: no
    non-empty suffix of the first chunk is a prefix of the second.  The
    overlap the signature promises is not made. *)
Theorem chunk_text_makes_no_overlap :
  forall (split_into_sentences : text -> list text) (txt : text),
    split_into_sentences txt = [lit "Stay calm."; lit "Leave now."] ->
    PDFProcessor.chunk_text split_into_sentences txt 12 100
      = [lit "Stay calm."; lit "Leave now."] /\
    PDFProcessor.share_overlap 100 (lit "Stay calm.") (lit "Leave now.") = false.
Proof.
  intros split_into_sentences txt Hsplit.
  unfold PDFProcessor.chunk_text. rewrite Hsplit.
  split; vm_compute; reflexivity.
Qed.

Lemma chunk_text_makes_no_overlap_witness :
  PDFProcessor.chunk_text (fun _ => [lit "Stay calm."; lit "Leave now."])
    (lit "Stay calm. Leave now.") 12 100
    = [lit "Stay calm."; lit "Leave now."] /\
  PDFProcessor.share_overlap 100 (lit "Stay calm.") (lit "Leave now.") = false.
Proof.
  apply (chunk_text_makes_no_overlap
           (fun _ => [lit "Stay calm."; lit "Leave now."])
           (lit "Stay calm. Leave now.")).
  reflexivity.
Defined.






(** ** Rounding *)

Lemma round_half_even_bounds (x : Q) (lo hi : Z) :
  (inject_Z lo <= x)%Q -> (x <= inject_Z hi)%Q ->
  lo <= Num.round_half_even x <= hi.
Proof.
  intros Hlo Hhi. unfold Num.round_half_even.
  assert (Hflo : lo <= Qfloor x).
  { rewrite <- (Qfloor_Z lo). now apply Qfloor_resp_le. }
  assert (Hfhi : Qfloor x <= hi).
  { rewrite <- (Qfloor_Z hi). now apply Qfloor_resp_le. }
  pose proof (Qfloor_le x) as Hfl.
  destruct (Z.eq_dec (Qfloor x) hi) as [Heq|Hne].
  - assert (Hc : (x - inject_Z (Qfloor x) ?= 1 # 2)%Q = Lt).
    { apply (proj1 (Qlt_alt _ _)). rewrite Heq. lra. }
    rewrite Hc. lia.
  - destruct (x - inject_Z (Qfloor x) ?= 1 # 2)%Q;
      [destruct (Z.even (Qfloor x))| |]; lia.
Qed.

Lemma Qcompare_cases (x y : Q) :
  match (x ?= y)%Q with
  | Eq => (x == y)%Q
  | Lt => (x < y)%Q
  | Gt => (y < x)%Q
  end.
Proof.
  destruct (x ?= y)%Q eqn:Hc.
  - now apply Qeq_alt.
  - now apply Qlt_alt.
  - now apply Qgt_alt.
Qed.

(** The rounded integer is the floor or the integer above it. *)
Lemma round_half_even_floor (x : Q) :
  Qfloor x <= Num.round_half_even x <= Qfloor x + 1.
Proof.
  unfold Num.round_half_even.
  destruct (x - inject_Z (Qfloor x) ?= 1 # 2)%Q;
    [destruct (Z.even (Qfloor x))| |]; lia.
Qed.

(** Rounding to the nearest integer is monotone. *)
Lemma round_half_even_mono (x y : Q) :
  (x <= y)%Q -> Num.round_half_even x <= Num.round_half_even y.
Proof.
  intros Hxy.
  pose proof (Qfloor_resp_le x y Hxy) as Hf.
  destruct (Z.eq_dec (Qfloor x) (Qfloor y)) as [Heq|Hne].
  - unfold Num.round_half_even. rewrite Heq.
    pose proof (Qcompare_cases (x - inject_Z (Qfloor y)) (1 # 2)) as Hx.
    pose proof (Qcompare_cases (y - inject_Z (Qfloor y)) (1 # 2)) as Hy.
    destruct (x - inject_Z (Qfloor y) ?= 1 # 2)%Q;
      destruct (y - inject_Z (Qfloor y) ?= 1 # 2)%Q;
      try (destruct (Z.even (Qfloor y))); try lia; exfalso; lra.
  - pose proof (round_half_even_floor x). pose proof (round_half_even_floor y).
    lia.
Qed.

(** Powers of two among the rationals. *)
Lemma two_pow_positive (n : Z) : 0 <= n -> (0 < inject_Z (2 ^ n))%Q.
Proof.
  intros Hn. change 0%Q with (inject_Z 0). rewrite <- Zlt_Qlt.
  now apply Z.pow_pos_nonneg.
Qed.

Lemma two_pow_add (a b : Z) :
  0 <= a -> 0 <= b ->
  (inject_Z (2 ^ (a + b)) == inject_Z (2 ^ a) * inject_Z (2 ^ b))%Q.
Proof.
  intros Ha Hb. rewrite Z.pow_add_r by assumption.
  rewrite inject_Z_mult. reflexivity.
Qed.

Lemma grid_exponent_nonneg (y : Q) : 0 <= Num.grid_exponent y.
Proof. unfold Num.grid_exponent. lia. Qed.

Lemma grid_exponent_mono (x y : Q) :
  (0 <= x)%Q -> (x <= y)%Q -> Num.grid_exponent x <= Num.grid_exponent y.
Proof.
  intros H0 Hxy. unfold Num.grid_exponent.
  assert (Hf : Qfloor (Qabs x) <= Qfloor (Qabs y)).
  { apply Qfloor_resp_le. rewrite !Qabs_pos; [assumption | lra | assumption]. }
  pose proof (Z.log2_le_mono _ _ Hf). lia.
Qed.

(** Below the next power of two of its grid, a number rounds to at most it;
    from the power of two of its grid on, to at least it. *)
Lemma on_grid_upper (y : Q) (n : Z) :
  Num.grid_exponent y <= n ->
  (y <= inject_Z (2 ^ n))%Q -> (Num.on_grid y <= inject_Z (2 ^ n))%Q.
Proof.
  intros Hk Hy. unfold Num.on_grid.
  pose proof (grid_exponent_nonneg y) as Hk0.
  set (k := Num.grid_exponent y) in *.
  pose proof (two_pow_positive k Hk0) as Hstep.
  assert (Hn : (inject_Z (2 ^ n) == inject_Z (2 ^ (n - k)) * inject_Z (2 ^ k))%Q).
  { rewrite <- two_pow_add by lia. now replace (n - k + k) with n by lia. }
  destruct (round_half_even_bounds (y / inject_Z (2 ^ k))
              (Qfloor (y / inject_Z (2 ^ k))) (2 ^ (n - k))) as [_ Hhi].
  - apply Qfloor_le.
  - apply Qle_shift_div_r; [exact Hstep|]. now rewrite <- Hn.
  - rewrite Hn. apply Qmult_le_compat_r; [|lra].
    now rewrite <- Zle_Qle.
Qed.

Lemma on_grid_lower (y : Q) (n : Z) :
  Num.grid_exponent y <= n ->
  (inject_Z (2 ^ n) <= y)%Q -> (inject_Z (2 ^ n) <= Num.on_grid y)%Q.
Proof.
  intros Hk Hy. unfold Num.on_grid.
  pose proof (grid_exponent_nonneg y) as Hk0.
  set (k := Num.grid_exponent y) in *.
  pose proof (two_pow_positive k Hk0) as Hstep.
  assert (Hn : (inject_Z (2 ^ n) == inject_Z (2 ^ (n - k)) * inject_Z (2 ^ k))%Q).
  { rewrite <- two_pow_add by lia. now replace (n - k + k) with n by lia. }
  destruct (round_half_even_bounds (y / inject_Z (2 ^ k))
              (2 ^ (n - k)) (Qfloor (y / inject_Z (2 ^ k)) + 1)) as [Hlo _].
  - apply Qle_shift_div_l; [exact Hstep|]. now rewrite <- Hn.
  - apply Qlt_le_weak, Qlt_floor.
  - rewrite Hn. apply Qmult_le_compat_r; [|lra].
    now rewrite <- Zle_Qle.
Qed.

Lemma on_grid_mono (x y : Q) :
  (0 <= x)%Q -> (x <= y)%Q -> (Num.on_grid x <= Num.on_grid y)%Q.
Proof.
  intros H0 Hxy.
  pose proof (grid_exponent_mono x y H0 Hxy) as Hk.
  destruct (Z.eq_dec (Num.grid_exponent x) (Num.grid_exponent y)) as [Heq|Hne].
  - unfold Num.on_grid. rewrite Heq.
    pose proof (two_pow_positive _ (grid_exponent_nonneg y)) as Hstep.
    apply Qmult_le_compat_r; [|lra].
    rewrite <- Zle_Qle. apply round_half_even_mono.
    apply Qmult_le_compat_r; [exact Hxy|].
    apply Qlt_le_weak, Qinv_lt_0_compat, Hstep.
  - assert (Hlt : Num.grid_exponent x < Num.grid_exponent y) by lia.
    pose proof (grid_exponent_nonneg x) as Hkx.
    set (n := Num.grid_exponent y + 52).
    assert (Hy0 : (0 <= y)%Q) by lra.
    assert (Hx : (x <= inject_Z (2 ^ n))%Q).
    { pose proof (Qlt_floor x) as Hfl.
      assert (Hfx : Qfloor x + 1 <= 2 ^ n).
      { assert (Hf0 : 0 <= Qfloor x).
        { rewrite <- (Qfloor_Z 0). now apply Qfloor_resp_le. }
        assert (Hpos : 0 < 2 ^ n) by (apply Z.pow_pos_nonneg; lia).
        destruct (Z.eq_dec (Qfloor x) 0) as [Hz|Hnz]; [lia|].
        assert (Hlog : Z.log2 (Qfloor x) - 52 <= Num.grid_exponent x).
        { unfold Num.grid_exponent.
          rewrite (Qfloor_comp _ _ (Qabs_pos x H0)). lia. }
        pose proof (Z.log2_spec (Qfloor x) ltac:(lia)) as [_ Hup].
        assert (Hle : 2 ^ Z.succ (Z.log2 (Qfloor x)) <= 2 ^ n).
        { apply Z.pow_le_mono_r; lia. }
        lia. }
      apply Qlt_le_weak. eapply Qlt_le_trans; [exact Hfl|].
      now rewrite <- Zle_Qle. }
    assert (Hy : (inject_Z (2 ^ n) <= y)%Q).
    { assert (Hlog : Num.grid_exponent y = Z.log2 (Qfloor y) - 52).
      { unfold Num.grid_exponent in Hlt |- *.
        rewrite (Qfloor_comp _ _ (Qabs_pos y Hy0)) in Hlt |- *. lia. }
      assert (Hfy : 0 < Qfloor y).
      { destruct (Z_lt_le_dec 0 (Qfloor y)) as [Hp|Hn]; [exact Hp|].
        rewrite (Z.log2_nonpos _ Hn) in Hlog. lia. }
      pose proof (Z.log2_spec (Qfloor y) Hfy) as [Hlow _].
      apply Qle_trans with (inject_Z (Qfloor y)); [|apply Qfloor_le].
      rewrite <- Zle_Qle. unfold n. rewrite Hlog.
      now replace (Z.log2 (Qfloor y) - 52 + 52) with (Z.log2 (Qfloor y)) by lia. }
    apply Qle_trans with (inject_Z (2 ^ n)).
    + apply on_grid_upper; [unfold n; lia | exact Hx].
    + apply on_grid_lower; [unfold n; lia | exact Hy].
Qed.

Lemma on_grid_nonneg (y : Q) : (0 <= y)%Q -> (0 <= Num.on_grid y)%Q.
Proof.
  intros Hy. unfold Num.on_grid.
  pose proof (two_pow_positive _ (grid_exponent_nonneg y)) as Hstep.
  set (step := inject_Z (2 ^ Num.grid_exponent y)) in *.
  destruct (round_half_even_bounds (y / step) 0 (Qfloor (y / step) + 1))
    as [Hlo _].
  - apply Qle_shift_div_l; [exact Hstep|]. change (inject_Z 0) with 0%Q. lra.
  - apply Qlt_le_weak, Qlt_floor.
  - apply Qmult_le_0_compat; [|lra].
    change 0%Q with (inject_Z 0). now rewrite <- Zle_Qle.
Qed.

Lemma scale_positive : (0 < Num.scale)%Q.
Proof. unfold Num.scale. apply two_pow_positive. lia. Qed.

(** Rounding to binary64 is monotone on the non-negative numbers and keeps
    them non-negative. *)
Lemma fl_mono (x y : Q) : (0 <= x)%Q -> (x <= y)%Q -> (Num.fl x <= Num.fl y)%Q.
Proof.
  intros H0 Hxy. unfold Num.fl. rewrite !Qred_correct.
  pose proof scale_positive as Hs.
  apply Qmult_le_compat_r.
  - apply on_grid_mono.
    + apply Qmult_le_0_compat; lra.
    + apply Qmult_le_compat_r; lra.
  - apply Qlt_le_weak, Qinv_lt_0_compat, Hs.
Qed.

Lemma fl_nonneg (x : Q) : (0 <= x)%Q -> (0 <= Num.fl x)%Q.
Proof.
  intros H0. unfold Num.fl. rewrite Qred_correct.
  pose proof scale_positive as Hs.
  apply Qle_shift_div_l; [exact Hs|].
  rewrite Qmult_0_l. apply on_grid_nonneg. apply Qmult_le_0_compat; lra.
Qed.

Lemma round_half_even_near (x : Q) :
  (inject_Z (Num.round_half_even x) - (1 # 2) <= x)%Q /\
  (x <= inject_Z (Num.round_half_even x) + (1 # 2))%Q.
Proof.
  unfold Num.round_half_even.
  pose proof (Qfloor_le x) as Hlo. pose proof (Qlt_floor x) as Hhi.
  set (f := Qfloor x) in *.
  rewrite inject_Z_plus in Hhi. change (inject_Z 1) with 1%Q in Hhi.
  assert (Hone : (inject_Z (f + 1) == inject_Z f + 1)%Q)
    by (rewrite inject_Z_plus; reflexivity).
  pose proof (Qcompare_cases (x - inject_Z f) (1 # 2)) as Hc.
  destruct (x - inject_Z f ?= 1 # 2)%Q.
  - destruct (Z.even f); [|rewrite Hone]; split; lra.
  - split; lra.
  - rewrite Hone. split; lra.
Qed.

(** A number is within half a step of its grid point. *)
Lemma on_grid_near (y : Q) :
  let step := inject_Z (2 ^ Num.grid_exponent y) in
  (Num.on_grid y - step * (1 # 2) <= y)%Q /\
  (y <= Num.on_grid y + step * (1 # 2))%Q.
Proof.
  intros step. unfold Num.on_grid. fold step.
  assert (Hstep : (0 < step)%Q)
    by (apply two_pow_positive, grid_exponent_nonneg).
  destruct (round_half_even_near (y / step)) as [Hlo Hhi].
  set (k := inject_Z (Num.round_half_even (y / step))) in *.
  assert (Hy : (y == y / step * step)%Q).
  { field. intros Hz. rewrite Hz in Hstep. discriminate Hstep. }
  split.
  - rewrite Hy at 1.
    setoid_replace (k * step - step * (1 # 2))%Q with ((k - (1 # 2)) * step)%Q
      by ring.
    apply Qmult_le_compat_r; lra.
  - rewrite Hy at 1.
    setoid_replace (k * step + step * (1 # 2))%Q with ((k + (1 # 2)) * step)%Q
      by ring.
    apply Qmult_le_compat_r; lra.
Qed.

Lemma grid_exponent_upper (y : Q) (n : Z) :
  52 <= n -> (0 <= y)%Q -> (y <= inject_Z (2 ^ n))%Q ->
  Num.grid_exponent y <= n - 52.
Proof.
  intros Hn H0 Hy. unfold Num.grid_exponent.
  rewrite (Qfloor_comp _ _ (Qabs_pos y H0)).
  assert (Hf : Qfloor y <= 2 ^ n).
  { rewrite <- (Qfloor_Z (2 ^ n)). now apply Qfloor_resp_le. }
  pose proof (Z.log2_le_mono _ _ Hf) as Hlog.
  rewrite Z.log2_pow2 in Hlog by lia. lia.
Qed.

(** Up to 2, rounding to binary64 moves a number by at most 2^-52. *)
Lemma fl_near (x : Q) :
  (0 <= x)%Q -> (x <= 2)%Q ->
  (Num.fl x - (1 # 4503599627370496) <= x)%Q /\
  (x <= Num.fl x + (1 # 4503599627370496))%Q.
Proof.
  intros H0 H2. unfold Num.fl. rewrite Qred_correct.
  pose proof scale_positive as Hs.
  set (y := (x * Num.scale)%Q).
  assert (Hy0 : (0 <= y)%Q) by (apply Qmult_le_0_compat; lra).
  assert (Hy : (y <= inject_Z (2 ^ 1075))%Q).
  { unfold y. setoid_replace (inject_Z (2 ^ 1075)) with (2 * Num.scale)%Q.
    - apply Qmult_le_compat_r; lra.
    - unfold Num.scale. change (2 ^ 1075) with (2 * 2 ^ 1074).
      rewrite inject_Z_mult. reflexivity. }
  pose proof (grid_exponent_upper y 1075 ltac:(lia) Hy0 Hy) as Hk.
  pose proof (grid_exponent_nonneg y) as Hk0.
  destruct (on_grid_near y) as [Hlo Hhi]. cbv zeta in Hlo, Hhi.
  assert (Hstep : (inject_Z (2 ^ Num.grid_exponent y) * (1 # 2)
                   <= Num.scale * (1 # 4503599627370496))%Q).
  { apply Qle_trans with (inject_Z (2 ^ 1023) * (1 # 2))%Q.
    - apply Qmult_le_compat_r; [|discriminate].
      rewrite <- Zle_Qle. apply Z.pow_le_mono_r; lia.
    - unfold Num.scale. vm_compute. discriminate. }
  set (g := Num.on_grid y) in *.
  set (h := (inject_Z (2 ^ Num.grid_exponent y) * (1 # 2))%Q) in *.
  assert (Hx : (x == y / Num.scale)%Q).
  { unfold y. field. intros Hz. rewrite Hz in Hs. discriminate Hs. }
  split.
  - rewrite Hx at 1.
    setoid_replace (g / Num.scale - (1 # 4503599627370496))%Q
      with ((g - Num.scale * (1 # 4503599627370496)) / Num.scale)%Q
      by (field; intros Hz; rewrite Hz in Hs; discriminate Hs).
    apply Qmult_le_compat_r; [lra|].
    apply Qlt_le_weak, Qinv_lt_0_compat, Hs.
  - rewrite Hx at 1.
    setoid_replace (g / Num.scale + (1 # 4503599627370496))%Q
      with ((g + Num.scale * (1 # 4503599627370496)) / Num.scale)%Q
      by (field; intros Hz; rewrite Hz in Hs; discriminate Hs).
    apply Qmult_le_compat_r; [lra|].
    apply Qlt_le_weak, Qinv_lt_0_compat, Hs.
Qed.

Lemma scaled_error (r d e : Q) :
  (0 <= r)%Q -> (r <= 1)%Q -> (- e <= d)%Q -> (d <= e)%Q ->
  (- e <= r * d)%Q /\ (r * d <= e)%Q.
Proof. intros. split; nra. Qed.

Lemma product_near (r w w0 : Q) :
  (0 <= r)%Q -> (r <= 1)%Q -> (0 <= w0)%Q -> (w0 <= 1)%Q ->
  (w = Num.fl w0) ->
  (0 <= Num.fmul r w)%Q /\
  (r * w0 - (2 # 4503599627370496) <= Num.fmul r w)%Q /\
  (Num.fmul r w <= r * w0 + (2 # 4503599627370496))%Q.
Proof.
  intros Hr0 Hr1 Hw0 Hw1 ->.
  destruct (fl_near w0) as [Hwlo Hwhi]; [lra | lra |].
  pose proof (fl_nonneg w0 Hw0) as Hwn.
  set (w := Num.fl w0) in *.
  destruct (scaled_error r (w - w0) (1 # 4503599627370496)) as [Hdlo Hdhi];
    try lra.
  assert (Hrw0 : (0 <= r * w)%Q) by (apply Qmult_le_0_compat; lra).
  assert (Hrw : (r * w == r * w0 + r * (w - w0))%Q) by ring.
  assert (Hrw01 : (r * w0 <= 1)%Q) by nra.
  unfold Num.fmul.
  destruct (fl_near (r * w)) as [Hlo Hhi]; [lra | lra |].
  pose proof (fl_nonneg (r * w) Hrw0).
  split; [assumption|]. split; lra.
Qed.

Lemma sum_near (a b : Q) :
  (0 <= a)%Q -> (0 <= b)%Q -> (a + b <= 2)%Q ->
  (0 <= Num.fadd a b)%Q /\
  (a + b - (1 # 4503599627370496) <= Num.fadd a b)%Q /\
  (Num.fadd a b <= a + b + (1 # 4503599627370496))%Q.
Proof.
  intros Ha Hb Hab. unfold Num.fadd.
  destruct (fl_near (a + b)) as [Hlo Hhi]; [lra | lra |].
  pose proof (fl_nonneg (a + b) ltac:(lra)).
  split; [assumption|]. split; lra.
Qed.

Lemma round_half_even_below (x : Q) (n : Z) :
  (x < inject_Z n + (1 # 2))%Q -> Num.round_half_even x <= n.
Proof.
  intros Hx. destruct (round_half_even_near x) as [Hlo _].
  assert (Hlt : (inject_Z (Num.round_half_even x) < inject_Z (n + 1))%Q).
  { rewrite inject_Z_plus. change (inject_Z 1) with 1%Q. lra. }
  rewrite <- Zlt_Qlt in Hlt. lia.
Qed.


(** ** Confidence *)

(** C1.  The score [calculate_confidence] returns is the weighted sum of the
    four component scores (source relevance at 0.4, response completeness at
    0.3, factual consistency at 0.2, query-complexity match at 0.1) rounded
    to three decimals: it is [round(., 3)] of the sum as Python adds it up,
    and when each component score lies in [0,1] it is the float nearest to a
    number of thousandths, between 0 and 1000 of them, that is within half a
    thousandth (and a float error below 10^-14) of the exact weighted sum.
    When each component score lies in [0,1], so does the score. *)
Theorem calculate_confidence_weighted_sum_in_unit_interval :
  forall (source : Type)
         (source_relevance : text -> list source -> Q)
         (response_completeness : text -> Q)
         (consistency : text -> list source -> Q)
         (complexity_match : text -> text -> Q)
         (query response : text) (sources : list source),
    let relevance_score := source_relevance query sources in
    let completeness_score := response_completeness response in
    let consistency_score := consistency response sources in
    let complexity_score := complexity_match query response in
    let confidence :=
      RAGEngine.calculate_confidence source source_relevance
        response_completeness consistency complexity_match
        query response sources in
    let exact :=
      RAGEngine.exact_weighted_sum
        [(relevance_score, 4 # 10); (completeness_score, 3 # 10);
         (consistency_score, 2 # 10); (complexity_score, 1 # 10)] in
    confidence =
      Num.round
        (RAGEngine.weighted_sum
           [(relevance_score, Num.fl (4 # 10));
            (completeness_score, Num.fl (3 # 10));
            (consistency_score, Num.fl (2 # 10));
            (complexity_score, Num.fl (1 # 10))]) 3
    /\
    ((0 <= relevance_score <= 1)%Q -> (0 <= completeness_score <= 1)%Q ->
     (0 <= consistency_score <= 1)%Q -> (0 <= complexity_score <= 1)%Q ->
     (exists thousandths : Z,
        0 <= thousandths <= 1000 /\
        confidence = Num.fl (inject_Z thousandths / inject_Z 1000) /\
        (exact - (1 # 2000) - (1 # 100000000000000)
         <= inject_Z thousandths / inject_Z 1000)%Q /\
        (inject_Z thousandths / inject_Z 1000
         <= exact + (1 # 2000) + (1 # 100000000000000))%Q) /\
     (0 <= confidence <= 1)%Q).
Proof.
  intros source source_relevance response_completeness consistency
    complexity_match query response sources.
  cbv zeta. unfold RAGEngine.calculate_confidence.
  set (r := source_relevance query sources).
  set (c := response_completeness response).
  set (s := consistency response sources).
  set (m := complexity_match query response).
  split.
  { cbn [RAGEngine.weighted_sum fold_left fst snd]. reflexivity. }
  intros [Hr0 Hr1] [Hc0 Hc1] [Hs0 Hs1] [Hm0 Hm1].
  destruct (product_near r (Num.fl (4 # 10)) (4 # 10)) as [Hp1 [Hp1l Hp1h]];
    try lra; try reflexivity.
  destruct (product_near c (Num.fl (3 # 10)) (3 # 10)) as [Hp2 [Hp2l Hp2h]];
    try lra; try reflexivity.
  destruct (product_near s (Num.fl (2 # 10)) (2 # 10)) as [Hp3 [Hp3l Hp3h]];
    try lra; try reflexivity.
  destruct (product_near m (Num.fl (1 # 10)) (1 # 10)) as [Hp4 [Hp4l Hp4h]];
    try lra; try reflexivity.
  set (p1 := Num.fmul r (Num.fl (4 # 10))) in *.
  set (p2 := Num.fmul c (Num.fl (3 # 10))) in *.
  set (p3 := Num.fmul s (Num.fl (2 # 10))) in *.
  set (p4 := Num.fmul m (Num.fl (1 # 10))) in *.
  destruct (sum_near p1 p2) as [Ha1 [Ha1l Ha1h]]; try lra.
  set (s1 := Num.fadd p1 p2) in *.
  destruct (sum_near s1 p3) as [Ha2 [Ha2l Ha2h]]; try lra.
  set (s2 := Num.fadd s1 p3) in *.
  destruct (sum_near s2 p4) as [Ha3 [Ha3l Ha3h]]; try lra.
  set (s3 := Num.fadd s2 p4) in *.
  set (exact := RAGEngine.exact_weighted_sum _).
  assert (Hexact : (exact == r * (4 # 10) + c * (3 # 10) + s * (2 # 10)
                             + m * (1 # 10))%Q).
  { unfold exact, RAGEngine.exact_weighted_sum. simpl. ring. }
  destruct (round_half_even_near (s3 * inject_Z 1000)) as [Hkl Hkh].
  assert (Hk0 : 0 <= Num.round_half_even (s3 * inject_Z 1000)).
  { apply (round_half_even_bounds _ 0 (Qfloor (s3 * inject_Z 1000) + 1)).
    - change (inject_Z 0) with 0%Q.
      change (inject_Z 1000) with (1000 # 1)%Q. lra.
    - apply Qlt_le_weak, Qlt_floor. }
  assert (Hk1 : Num.round_half_even (s3 * inject_Z 1000) <= 1000).
  { apply round_half_even_below.
    change (inject_Z 1000) with (1000 # 1)%Q. lra. }
  unfold Num.round.
  change (inject_Z (10 ^ Z.of_nat 3)) with (inject_Z 1000).
  set (k := Num.round_half_even (s3 * inject_Z 1000)) in *.
  assert (Hdiv : (inject_Z k / inject_Z 1000 == inject_Z k * (1 # 1000))%Q)
    by (unfold Qdiv; reflexivity).
  change (inject_Z 1000) with (1000 # 1)%Q in Hkl, Hkh.
  split.
  - exists k. split; [lia|]. split; [reflexivity|].
    rewrite Hdiv, Hexact. split; lra.
  - assert (Hq0 : (0 <= inject_Z k / inject_Z 1000)%Q).
    { rewrite Hdiv. apply Qmult_le_0_compat; [|discriminate].
      change 0%Q with (inject_Z 0). rewrite <- Zle_Qle. lia. }
    assert (Hq1 : (inject_Z k / inject_Z 1000 <= 1)%Q).
    { rewrite Hdiv.
      assert (Hk : (inject_Z k <= inject_Z 1000)%Q)
        by (rewrite <- Zle_Qle; lia).
      change (inject_Z 1000) with (1000 # 1)%Q in Hk. lra. }
    split.
    + now apply fl_nonneg.
    + apply Qle_trans with (Num.fl 1); [now apply fl_mono|].
      vm_compute. discriminate.
Qed.

Lemma calculate_confidence_weighted_sum_in_unit_interval_witness :
  let confidence :=
    RAGEngine.calculate_confidence unit
      (fun _ _ => 5 # 8) (fun _ => 1 # 2) (fun _ _ => 1 # 4) (fun _ _ => 1)%Q
      (lit "fire exit") (lit "Leave by the nearest exit.") [tt] in
  (0 <= confidence <= 1)%Q.
Proof.
  apply (calculate_confidence_weighted_sum_in_unit_interval unit
           (fun _ _ => 5 # 8) (fun _ => 1 # 2) (fun _ _ => 1 # 4)
           (fun _ _ => 1)%Q
           (lit "fire exit") (lit "Leave by the nearest exit.") [tt]);
    split; vm_compute; discriminate.
Defined.

(** The score at the witness, 0.25 + 0.15 + 0.05 + 0.1, is the float 0.55;
    with every component at 1 the sum is the float below 1 and the score
    is 1. *)
Example calculate_confidence_examples :
  RAGEngine.calculate_confidence unit
    (fun _ _ => 5 # 8) (fun _ => 1 # 2) (fun _ _ => 1 # 4) (fun _ _ => 1)%Q
    (lit "fire exit") (lit "Leave by the nearest exit.") [tt]
  = Num.fl (55 # 100) /\
  RAGEngine.weighted_sum
    [(1%Q, Num.fl (4 # 10)); (1%Q, Num.fl (3 # 10)); (1%Q, Num.fl (2 # 10));
     (1%Q, Num.fl (1 # 10))]
  = (9007199254740991 # 9007199254740992)%Q /\
  RAGEngine.calculate_confidence unit
    (fun _ _ => 1%Q) (fun _ => 1%Q) (fun _ _ => 1%Q) (fun _ _ => 1%Q)
    (lit "fire exit") (lit "Leave by the nearest exit.") [tt]
  = 1%Q.
Proof. vm_compute. repeat split. Qed.

(** The arithmetic of the embedding is the kernel's binary64 arithmetic on
    these values: the literals, the weighted sum of the witness and the sum
    with every component at 1. *)
Example fl_agrees_with_kernel_floats :
  Binary64.value (Binary64.ratio 4 10) = Some (Num.fl (4 # 10)) /\
  Binary64.value (Binary64.ratio 1 3) = Some (Num.fl (1 # 3)) /\
  Binary64.value
    (PrimFloat.add (Binary64.ratio 1 10) (Binary64.ratio 2 10))
  = Some (Num.fadd (Num.fl (1 # 10)) (Num.fl (2 # 10))) /\
  Binary64.value
    (PrimFloat.add
       (PrimFloat.add
          (PrimFloat.add
             (PrimFloat.mul (Binary64.ratio 5 8) (Binary64.ratio 4 10))
             (PrimFloat.mul (Binary64.ratio 1 2) (Binary64.ratio 3 10)))
          (PrimFloat.mul (Binary64.ratio 1 4) (Binary64.ratio 2 10)))
       (PrimFloat.mul (Binary64.of_Z 1) (Binary64.ratio 1 10)))
  = Some (RAGEngine.weighted_sum
            [(5 # 8, Num.fl (4 # 10)); (1 # 2, Num.fl (3 # 10));
             (1 # 4, Num.fl (2 # 10)); (1%Q, Num.fl (1 # 10))]) /\
  Binary64.value
    (PrimFloat.add
       (PrimFloat.add
          (PrimFloat.add
             (PrimFloat.mul (Binary64.of_Z 1) (Binary64.ratio 4 10))
             (PrimFloat.mul (Binary64.of_Z 1) (Binary64.ratio 3 10)))
          (PrimFloat.mul (Binary64.of_Z 1) (Binary64.ratio 2 10)))
       (PrimFloat.mul (Binary64.of_Z 1) (Binary64.ratio 1 10)))
  = Some (RAGEngine.weighted_sum
            [(1%Q, Num.fl (4 # 10)); (1%Q, Num.fl (3 # 10));
             (1%Q, Num.fl (2 # 10)); (1%Q, Num.fl (1 # 10))]).
Proof. vm_compute. repeat split. Qed.

(** The rounding [fl] on the familiar values: 0.1 is 3602879701896397 / 2^55,
    and 0.1 + 0.2 is the float above 0.3. *)
Example fl_examples :
  Num.fl (1 # 10) = (3602879701896397 # 36028797018963968)%Q /\
  Num.fadd (Num.fl (1 # 10)) (Num.fl (2 # 10))
  = (1351079888211149 # 4503599627370496)%Q /\
  Num.fl (1 # 3) = (6004799503160661 # 18014398509481984)%Q /\
  Num.round (Num.fl (2675 # 1000)) 2 = Num.fl (267 # 100).
Proof. vm_compute. repeat split. Qed.

(** ** Query validation and enhancement *)

Lemma strip_nil : strip [] = [].
Proof. reflexivity. Qed.

Lemma len_zero (s : text) : len s = 0 <-> s = [].
Proof.
  unfold len. destruct s; simpl; split; intros H; try reflexivity;
    try discriminate; lia.
Qed.

Lemma validate_query_spec (query : text) :
  RAGEngine.validate_query query = true <->
  strip query <> [] /\ len query <= 1000.
Proof.
  unfold RAGEngine.validate_query.
  destruct (truthy query) eqn:Ht; simpl.
  - destruct (Z.eqb_spec (len (strip query)) 0) as [Hz|Hnz].
    + apply len_zero in Hz. split; [discriminate | intros [Hne _]; contradiction].
    + assert (Hne : strip query <> []) by (intros He; apply Hnz; now apply len_zero).
      destruct (Z.gtb_spec (len query) 1000) as [Hgt|Hle].
      * split; [discriminate | intros [_ Hl]; lia].
      * split; [intros _; split; [exact Hne | lia] | reflexivity].
  - apply truthy_false in Ht. subst query.
    split; [discriminate | intros [Hne _]; now rewrite strip_nil in Hne].
Qed.

(** C5.  [validate_query] returns true exactly when the query is non-empty
    after stripping whitespace and has at most 1000 characters; on every
    query that breaks one of the two, the chat operation answers with a
    client error (HTTP 400) and the log of calls to the completion service is
    as it was. *)
Theorem validate_query_iff_chat_rejects_without_completion :
  forall (retrieve_context : text -> text)
         (create_user_prompt : text -> text -> text)
         (completion_service : text -> text)
         (query : text) (completion_calls : list text),
    (RAGEngine.validate_query query = true <->
     strip query <> [] /\ len query <= 1000)
    /\
    (strip query = [] \/ 1000 < len query ->
     exists violated,
       ChatEndpoint.chat retrieve_context create_user_prompt
         completion_service query completion_calls
       = (ChatEndpoint.ClientError 400 violated, completion_calls)).
Proof.
  intros retrieve_context create_user_prompt completion_service query
    completion_calls.
  split; [apply validate_query_spec|].
  intros Hbad. unfold ChatEndpoint.chat.
  destruct (RAGEngine.validate_query query) eqn:Hv.
  - apply validate_query_spec in Hv. destruct Hv as [Hne Hlen].
    destruct Hbad as [Hempty|Hlong]; [contradiction | lia].
  - eexists. reflexivity.
Qed.

Lemma validate_query_iff_chat_rejects_without_completion_witness :
  exists violated,
    ChatEndpoint.chat (fun q => q) (fun q c => q ++ c) (fun p => p)
      (repeat 97%N 1001) [lit "an earlier prompt"]
    = (ChatEndpoint.ClientError 400 violated, [lit "an earlier prompt"]).
Proof.
  apply (validate_query_iff_chat_rejects_without_completion
           (fun q => q) (fun q c => q ++ c) (fun p => p)
           (repeat 97%N 1001) [lit "an earlier prompt"]).
  right. vm_compute. reflexivity.
Defined.

(** [validate_query] at the two bounds and on a blank query. *)
Example validate_query_examples :
  RAGEngine.validate_query (repeat 97%N 1000) = true /\
  RAGEngine.validate_query (repeat 97%N 1001) = false /\
  RAGEngine.validate_query (lit "   ") = false /\
  RAGEngine.validate_query [] = false /\
  RAGEngine.validate_query (lit " What do I do during a fire? ") = true.
Proof. vm_compute. repeat split. Qed.

(** C6, as the claim words it, fails: the enhanced query is not the raw
    query with fixed keywords appended to it, since fixed words come before
    the raw query as well. *)
Lemma enhance_query_is_not_an_append :
  ~ (exists keywords : text,
       forall query : text,
         RAGEngine.enhance_query query = query ++ keywords).
Proof.
  intros [keywords Happend].
  pose proof (Happend (lit "fire")) as Hfire.
  vm_compute in Hfire. discriminate Hfire.
Qed.

(** C6, amended.  [enhance_query] is a function of the raw query alone, and
    it puts a fixed set of domain keywords around the raw query: the result
    is the fixed words "RA training ", then the raw query character for
    character, then the fixed words " procedures policy" appended after it.
    So the raw query stands verbatim inside the result, at offset 12, and
    what comes before it and what follows it are the same for every
    query. *)
Theorem enhance_query_wraps_query_in_keywords :
  forall query : text,
    RAGEngine.enhance_query query
      = lit "RA training " ++ query ++ lit " procedures policy" /\
    firstn (length query) (skipn 12 (RAGEngine.enhance_query query)) = query /\
    skipn (12 + length query) (RAGEngine.enhance_query query)
      = lit " procedures policy" /\
    len (RAGEngine.enhance_query query) = len query + 30.
Proof.
  intros query. unfold RAGEngine.enhance_query.
  assert (Hpre : length (lit "RA training ") = 12%nat) by reflexivity.
  split; [reflexivity|]. split; [|split].
  - rewrite skipn_app, Hpre.
    rewrite (skipn_all2 (lit "RA training ")) by (rewrite Hpre; lia).
    simpl. rewrite firstn_app, firstn_all, Nat.sub_diag. simpl.
    now rewrite app_nil_r.
  - rewrite app_assoc, skipn_app, length_app, Hpre.
    rewrite skipn_all2 by (rewrite length_app, Hpre; lia).
    replace (12 + length query - (12 + length query))%nat with 0%nat by lia.
    reflexivity.
  - rewrite !len_app. change (len (lit "RA training ")) with 12.
    change (len (lit " procedures policy")) with 18. lia.
Qed.

Example enhance_query_example :
  RAGEngine.enhance_query (lit "fire drill")
    = lit "RA training fire drill procedures policy".
Proof. vm_compute. reflexivity. Qed.

(** ** The chat page *)





(** The message the handler appends after the [await], in each branch in
    which the page stays mounted. *)
Lemma after_await_messages (loadingMessageId query : text) (r : Page.awaited)
  (c : Page.clock) (st : Page.Home.state) :
  Page.unmounts r = false ->
  exists st' final,
    Page.after_await loadingMessageId query r c st = Page.Mounted st' /\
    Page.Home.messages st'
      = Page.without loadingMessageId (Page.Home.messages st) ++ [final] /\
    Page.isLoading final = None /\
    (Page.failed r = true ->
     Page.confidence final = Page.zero /\
     Page.sources final = [] /\ Page.links final = []) /\
    Page.Home.isLoading st' = false /\
    Page.Home.apiAvailable st'
    = match r with
      | Page.Resolved _ => Page.Home.apiAvailable st
      | Page.Threw => false
      end.
Proof.
  intros Hmounted. destruct r as [response|]; simpl in *.
  - rewrite Hmounted.
    destruct response as [| |b|n|s|response]; try discriminate Hmounted;
      try (eexists; eexists; split; [reflexivity|]; simpl;
           repeat split; reflexivity).
    destruct (Api.status response), (Api.data response) as [d|];
      eexists; eexists; (split; [reflexivity|]); simpl;
      (split; [reflexivity|]); (split; [reflexivity|]);
      (split; [|split; reflexivity]);
      intros H; try discriminate H; repeat split.
  - eexists; eexists. split; [reflexivity|]. simpl.
    repeat split; reflexivity.
Qed.

(** On [null] and on [undefined] the page is unmounted. *)
Lemma after_await_unmounts (loadingMessageId query : text) (r : Page.awaited)
  (c : Page.clock) (st : Page.Home.state) :
  Page.unmounts r = true ->
  Page.after_await loadingMessageId query r c st = Page.Unmounted.
Proof.
  intros H. destruct r as [response|]; [|discriminate H].
  simpl in *. now rewrite H.
Qed.




(** While a request is pending the handler returns at once and the list is
    left as it is, loading message included. *)
Lemma handleSendMessage_pending_is_noop :
  forall (st : Page.Home.state) (query : text) (start : Page.clock)
         (r : Page.awaited) (finish : Page.clock),
    Page.Home.isLoading st = true ->
    Page.handleSendMessage st query start r finish = Page.Mounted st.
Proof.
  intros st query start r finish Hpending. unfold Page.handleSendMessage.
  rewrite Hpending. now rewrite orb_true_r.
Qed.

(** ** The chat input *)

(** C8, as the claim words it, fails: a non-blank message is not sent while
    [isLoading] is set (nor while [disabled] is). *)
Lemma handleSubmit_sends_nothing_while_loading :
  ~ (forall (p : ChatInput.props) (message : text),
       trim message <> [] ->
       ChatInput.onSendMessage_calls (ChatInput.handleSubmit p message)
       = [trim message]).
Proof.
  intros Hclaim.
  specialize (Hclaim {| ChatInput.isLoading := true; ChatInput.disabled := false |}
                     (lit "Where do we assemble?")).
  vm_compute in Hclaim.
  assert (H : @nil text = [lit "Where do we assemble?"]).
  { apply Hclaim. discriminate. }
  discriminate H.
Qed.

(** C8, amended.  The chat input does not enforce the 1000-character limit:
    when it is neither loading nor disabled, [handleSubmit] calls
    [onSendMessage] once, with the trimmed text, for every message whose
    trimmed text is non-empty, whatever its length, and clears the input;
    the only message text it rejects is a blank one. *)
Theorem handleSubmit_sends_every_nonblank_message :
  forall (p : ChatInput.props) (message : text),
    ChatInput.isLoading p = false ->
    ChatInput.disabled p = false ->
    (trim message <> [] ->
     ChatInput.handleSubmit p message
     = {| ChatInput.onSendMessage_calls := [trim message];
          ChatInput.message_after := [] |}) /\
    (trim message = [] ->
     ChatInput.handleSubmit p message
     = {| ChatInput.onSendMessage_calls := [];
          ChatInput.message_after := message |}).
Proof.
  intros p message Hloading Hdisabled. unfold ChatInput.handleSubmit.
  rewrite Hloading, Hdisabled. split; intros Htrim.
  - apply truthy_true in Htrim. rewrite Htrim. reflexivity.
  - rewrite Htrim. reflexivity.
Qed.

(** A message of 1003 characters, 1001 of them after trimming, is sent. *)
Lemma handleSubmit_sends_every_nonblank_message_witness :
  let message := lit " " ++ repeat 97%N 1001 ++ lit " " in
  ChatInput.handleSubmit
    {| ChatInput.isLoading := false; ChatInput.disabled := false |} message
  = {| ChatInput.onSendMessage_calls := [trim message];
       ChatInput.message_after := [] |}.
Proof.
  intros message.
  apply (handleSubmit_sends_every_nonblank_message
           {| ChatInput.isLoading := false; ChatInput.disabled := false |}
           message);
    try reflexivity.
  vm_compute. discriminate.
Defined.

Example trim_long_message :
  len (trim (lit " " ++ repeat 97%N 1001 ++ lit " ")) = 1001.
Proof. vm_compute. reflexivity. Qed.

(** ** Confidence labels and colours *)

(** The band of a confidence: which of the thresholds 80, 60, 40 its rounded
    percentage reaches. *)
Lemma formatConfidence_by_band (c : Num.number) :
  let percentage := Num.Math_round (Num.mul c 100) in
  Utils.formatConfidence c =
    (if Num.ge percentage 80 then lit "High"
     else if Num.ge percentage 60 then lit "Medium"
     else if Num.ge percentage 40 then lit "Low"
     else lit "Very Low") /\
  Utils.getConfidenceColor c =
    (if Num.ge percentage 80 then lit "text-green-600"
     else if Num.ge percentage 60 then lit "text-yellow-600"
     else if Num.ge percentage 40 then lit "text-orange-600"
     else lit "text-red-600").
Proof. split; reflexivity. Qed.

Ltac distinct_literals :=
  match goal with
  | H : lit _ = lit _ |- _ => vm_compute in H; discriminate H
  end.

(** C9.  The label and the colour of a confidence go together: for every
    number, NaN and the infinities included, both functions round [c * 100]
    to the nearest integer and compare it with the same thresholds 80, 60
    and 40, so the label is 'High' exactly when the colour is green, 'Medium'
    exactly when it is yellow, 'Low' exactly when it is orange and 'Very Low'
    exactly when it is red. *)
Theorem formatConfidence_agrees_with_getConfidenceColor :
  forall c : Num.number,
    (Utils.formatConfidence c = lit "High" <->
     Utils.getConfidenceColor c = lit "text-green-600") /\
    (Utils.formatConfidence c = lit "Medium" <->
     Utils.getConfidenceColor c = lit "text-yellow-600") /\
    (Utils.formatConfidence c = lit "Low" <->
     Utils.getConfidenceColor c = lit "text-orange-600") /\
    (Utils.formatConfidence c = lit "Very Low" <->
     Utils.getConfidenceColor c = lit "text-red-600").
Proof.
  intros c.
  destruct (formatConfidence_by_band c) as [Hlabel Hcolour].
  cbv zeta in Hlabel, Hcolour. rewrite Hlabel, Hcolour.
  destruct (Num.ge (Num.Math_round (Num.mul c 100)) 80);
    [|destruct (Num.ge (Num.Math_round (Num.mul c 100)) 60);
      [|destruct (Num.ge (Num.Math_round (Num.mul c 100)) 40)]];
    repeat split; intros H; try reflexivity; distinct_literals.
Qed.

(** The bands at a few confidences: 0.795 is rounded up to 80 percent and
    0.794 down to 79; NaN falls in the lowest band. *)
Example formatConfidence_examples :
  Utils.formatConfidence (Num.Finite (795 # 1000)) = lit "High" /\
  Utils.formatConfidence (Num.Finite (794 # 1000)) = lit "Medium" /\
  Utils.formatConfidence (Num.Finite (1 # 2)) = lit "Low" /\
  Utils.formatConfidence (Num.Finite 0) = lit "Very Low" /\
  Utils.formatConfidence Num.NaN = lit "Very Low" /\
  Utils.getConfidenceColor Num.NaN = lit "text-red-600" /\
  Utils.getConfidenceColor Num.PosInfinity = lit "text-green-600".
Proof. vm_compute. repeat split. Qed.

(** ** The API client *)

(** C10.  [sendChatMessage] does not throw when the backend answered with a
    body.  When the request fails with an axios error that carries response
    data (the test of the code: [error.response?.data] is truthy, as every
    object is, a [ChatResponse] among them), the call returns that body.  It
    throws, and then with the message 'Failed to send chat message', only
    when there is no such data: the failure is not an axios error, or has no
    response, or the response has no truthy body. *)
Theorem sendChatMessage_returns_error_body :
  forall e : Api.failure,
    (Api.isAxiosError e = true ->
     Api.truthy_body (Api.response_data_of e) = true ->
     Api.sendChatMessage (Api.RejectedWith e)
     = Api.Returns (Api.response_data_of e)) /\
    (forall r : Api.ChatResponse,
       Api.response_data_of e = Api.Object r ->
       Api.sendChatMessage (Api.RejectedWith e) = Api.Returns (Api.Object r)) /\
    (forall error_message : text,
       Api.sendChatMessage (Api.RejectedWith e) = Api.Throws error_message ->
       error_message = lit "Failed to send chat message" /\
       (Api.isAxiosError e = false \/
        Api.truthy_body (Api.response_data_of e) = false)).
Proof.
  intros e. split; [|split].
  - intros Haxios Hdata. simpl. now rewrite Haxios, Hdata.
  - intros r Hdata. destruct e as [[response|]|]; simpl in Hdata;
      try discriminate Hdata.
    simpl. now rewrite Hdata.
  - intros error_message Hthrows. unfold Api.sendChatMessage in Hthrows.
    destruct (Api.isAxiosError e) eqn:Haxios; simpl in Hthrows.
    + destruct (Api.truthy_body (Api.response_data_of e)) eqn:Hdata.
      * discriminate Hthrows.
      * injection Hthrows as <-. split; [reflexivity | now right].
    + injection Hthrows as <-. split; [reflexivity | now left].
Qed.

Lemma sendChatMessage_returns_error_body_witness :
  let error_body :=
    Api.Object {| Api.status := Api.error; Api.data := None;
                  Api.message := Some (lit "Query cannot be empty");
                  Api.response_timestamp := lit "2024-01-15T14:30:45Z" |} in
  Api.sendChatMessage
    (Api.RejectedWith
       (Api.AxiosError
          (Some {| Api.http_status := 400; Api.response_data := error_body |})))
  = Api.Returns error_body.
Proof.
  apply (proj1 (sendChatMessage_returns_error_body
                  (Api.AxiosError
                     (Some {| Api.http_status := 400;
                              Api.response_data :=
                                Api.Object
                                  {| Api.status := Api.error;
                                     Api.data := None;
                                     Api.message :=
                                       Some (lit "Query cannot be empty");
                                     Api.response_timestamp :=
                                       lit "2024-01-15T14:30:45Z" |} |}))));
    reflexivity.
Defined.

(** A network failure (an axios error with no response) and a failure that
    is no axios error make the call throw. *)
Example sendChatMessage_throws_without_response :
  Api.sendChatMessage (Api.RejectedWith (Api.AxiosError None))
    = Api.Throws (lit "Failed to send chat message") /\
  Api.sendChatMessage (Api.RejectedWith Api.OtherError)
    = Api.Throws (lit "Failed to send chat message").
Proof. split; reflexivity. Qed.

(* ================================================================== *)
(** * Further properties *)

(** ** What stripping leaves *)

Section StrippedTexts.
Variable is_space : char -> bool.

Let clean_ends := JsString.clean_ends is_space.

Lemma lstrip_by_nil_iff (s : text) :
  lstrip_by is_space s = [] <-> forallb is_space s = true.
Proof.
  induction s as [|c s IH]; simpl; [tauto|].
  destruct (is_space c); simpl; [exact IH|].
  split; discriminate.
Qed.

Lemma rstrip_by_nil_iff (s : text) :
  rstrip_by is_space s = [] <-> forallb is_space s = true.
Proof.
  induction s as [|c s IH]; simpl; [tauto|].
  destruct (rstrip_by is_space s) as [|k kept].
  - destruct (is_space c); simpl.
    + split; [intros _; now apply IH | reflexivity].
    + split; discriminate.
  - split; [discriminate|]. intros H. apply andb_true_iff in H.
    destruct H as [_ H]. apply IH in H. discriminate H.
Qed.

Lemma lstrip_by_suffix (s : text) :
  exists spaces, s = spaces ++ lstrip_by is_space s /\
                 forallb is_space spaces = true.
Proof.
  induction s as [|c s [spaces [Hs Hsp]]]; simpl.
  - exists []. split; reflexivity.
  - destruct (is_space c) eqn:Hc.
    + exists (c :: spaces). simpl. rewrite Hc, Hsp. split; [|reflexivity].
      f_equal. exact Hs.
    + exists []. split; reflexivity.
Qed.

Lemma strip_by_nil_iff (s : text) :
  strip_by is_space s = [] <-> forallb is_space s = true.
Proof.
  unfold strip_by. rewrite rstrip_by_nil_iff.
  destruct (lstrip_by_suffix s) as [spaces [Hs Hsp]].
  split; intros H.
  - rewrite Hs, forallb_app, Hsp, H. reflexivity.
  - rewrite Hs, forallb_app in H. apply andb_true_iff in H. tauto.
Qed.

Lemma lstrip_by_head (s : text) :
  match lstrip_by is_space s with
  | [] => True
  | c :: _ => is_space c = false
  end.
Proof.
  induction s as [|c s IH]; simpl; [exact I|].
  destruct (is_space c) eqn:Hc; [exact IH | exact Hc].
Qed.

Lemma lstrip_by_clean (s : text) :
  match s with [] => True | c :: _ => is_space c = false end ->
  lstrip_by is_space s = s.
Proof. destruct s as [|c s]; simpl; [reflexivity|]. now intros ->. Qed.

Lemma rstrip_by_head (s : text) :
  match rstrip_by is_space s with
  | [] => True
  | c :: _ => match s with [] => False | d :: _ => c = d end
  end.
Proof.
  destruct s as [|d s]; simpl; [exact I|].
  destruct (rstrip_by is_space s); [destruct (is_space d)|]; simpl; auto.
Qed.

Lemma rstrip_by_last (s : text) (d : char) :
  match rstrip_by is_space s with
  | [] => True
  | kept => is_space (last kept d) = false
  end.
Proof.
  induction s as [|c s IH]; simpl; [exact I|].
  destruct (rstrip_by is_space s) as [|k kept].
  - destruct (is_space c) eqn:Hc; simpl; [exact I | exact Hc].
  - exact IH.
Qed.

Lemma rstrip_by_idempotent (s : text) :
  rstrip_by is_space (rstrip_by is_space s) = rstrip_by is_space s.
Proof.
  induction s as [|c s IH]; simpl; [reflexivity|].
  destruct (rstrip_by is_space s) as [|k kept] eqn:E.
  - destruct (is_space c) eqn:Hc; simpl; [reflexivity|]. now rewrite Hc.
  - change (rstrip_by is_space (c :: k :: kept)) with
      (match rstrip_by is_space (k :: kept) with
       | [] => if is_space c then [] else [c]
       | kept' => c :: kept'
       end).
    now rewrite IH.
Qed.

Lemma rstrip_by_snoc_clean (s : text) (c : char) :
  is_space c = false -> rstrip_by is_space (s ++ [c]) = s ++ [c].
Proof.
  intros Hc. induction s as [|d s IH]; simpl.
  - now rewrite Hc.
  - rewrite IH. destruct (s ++ [c]) eqn:E; [|reflexivity].
    destruct s; discriminate E.
Qed.

(** What [strip_by] returns has no space at either end, and stripping it
    again changes nothing. *)
Lemma strip_by_clean_ends (s : text) : clean_ends (strip_by is_space s).
Proof.
  unfold strip_by, clean_ends, JsString.clean_ends.
  pose proof (lstrip_by_head s) as Hhead.
  pose proof (rstrip_by_head (lstrip_by is_space s)) as Hkeep.
  destruct (rstrip_by is_space (lstrip_by is_space s)) as [|c kept] eqn:E;
    [exact I|].
  split.
  - destruct (lstrip_by is_space s) as [|d t]; [contradiction|].
    now subst d.
  - pose proof (rstrip_by_last (lstrip_by is_space s) c) as Hlast.
    now rewrite E in Hlast.
Qed.

Lemma strip_by_idempotent (s : text) :
  strip_by is_space (strip_by is_space s) = strip_by is_space s.
Proof.
  pose proof (strip_by_clean_ends s) as Hclean.
  unfold strip_by at 1.
  rewrite lstrip_by_clean.
  - unfold strip_by. apply rstrip_by_idempotent.
  - unfold clean_ends, JsString.clean_ends in Hclean.
    destruct (strip_by is_space s); [exact I | tauto].
Qed.

(** A text between a first and a last character that are no spaces is left
    as it is. *)
Lemma strip_by_between (first last_ : char) (middle : text) :
  is_space first = false -> is_space last_ = false ->
  strip_by is_space (first :: middle ++ [last_]) = first :: middle ++ [last_].
Proof.
  intros Hf Hl. unfold strip_by. rewrite lstrip_by_clean by exact Hf.
  change (first :: middle ++ [last_]) with ((first :: middle) ++ [last_]).
  now apply rstrip_by_snoc_clean.
Qed.
End StrippedTexts.

(** ** Chunks and the sentences they are made of *)

Lemma joined_app (a b : list text) :
  Chunking.joined (a ++ b) = Chunking.joined a ++ Chunking.joined b.
Proof. unfold Chunking.joined. now rewrite map_app, concat_app. Qed.

Lemma joined_one (sentence : text) :
  Chunking.joined [sentence] = sentence ++ lit " ".
Proof. unfold Chunking.joined. simpl. apply app_nil_r. Qed.

Lemma joined_nil_iff (group : list text) :
  Chunking.joined group = [] <-> group = [].
Proof.
  destruct group as [|sentence group]; [tauto|].
  split; [|discriminate]. unfold Chunking.joined. simpl. intros H.
  destruct sentence; discriminate H.
Qed.

Section GroupsOfSentences.
Import PDFProcessor.
Variable chunk_size : Z.

(** One turn of the loop keeps the chunks made so far and the pending text in
    step with a division of the sentences read so far into groups. *)
Lemma loop_body_groups (st : loop_state) (sentence : text)
  (groups : list (list text)) (pending : list text) :
  chunks st = map Chunking.chunk_of groups ->
  current_chunk st = Chunking.joined pending ->
  Forall (fun group => group <> []) groups ->
  exists groups' pending',
    concat groups' ++ pending' = concat groups ++ pending ++ [sentence] /\
    chunks (loop_body chunk_size st sentence)
      = map Chunking.chunk_of groups' /\
    current_chunk (loop_body chunk_size st sentence)
      = Chunking.joined pending' /\
    Forall (fun group => group <> []) groups'.
Proof.
  intros Hc Hp Hne. unfold loop_body.
  destruct (len (current_chunk st) + len sentence <? chunk_size); simpl.
  - exists groups, (pending ++ [sentence]). repeat split; try assumption.
    now rewrite joined_app, joined_one, Hp.
  - destruct (truthy (current_chunk st)) eqn:Ht.
    + exists (groups ++ [pending]), [sentence]. split; [|split; [|split]].
      * rewrite concat_app. simpl. now rewrite app_nil_r, <- app_assoc.
      * unfold flush. now rewrite map_app, Hc, Hp.
      * now rewrite joined_one.
      * apply Forall_app. split; [exact Hne|]. constructor; [|constructor].
        intros ->. rewrite Hp in Ht. discriminate Ht.
    + exists groups, [sentence]. split; [|split; [|split]]; try assumption.
      * apply truthy_false in Ht. rewrite Hp in Ht.
        apply joined_nil_iff in Ht. now rewrite Ht.
      * now rewrite joined_one.
Qed.

Lemma loop_groups (rest : list text) :
  forall (st : loop_state) (groups : list (list text)) (pending : list text),
    chunks st = map Chunking.chunk_of groups ->
    current_chunk st = Chunking.joined pending ->
    Forall (fun group => group <> []) groups ->
    exists groups' pending',
      concat groups' ++ pending' = concat groups ++ pending ++ rest /\
      chunks (fold_left (loop_body chunk_size) rest st)
        = map Chunking.chunk_of groups' /\
      current_chunk (fold_left (loop_body chunk_size) rest st)
        = Chunking.joined pending' /\
      Forall (fun group => group <> []) groups'.
Proof.
  induction rest as [|sentence rest IH]; intros st groups pending Hc Hp Hne;
    simpl.
  - exists groups, pending. now rewrite app_nil_r.
  - destruct (loop_body_groups st sentence groups pending Hc Hp Hne)
      as [groups1 [pending1 [Hcat1 [Hc1 [Hp1 Hne1]]]]].
    destruct (IH _ groups1 pending1 Hc1 Hp1 Hne1)
      as [groups' [pending' [Hcat H]]].
    exists groups', pending'. split; [|exact H].
    rewrite Hcat, app_assoc, Hcat1, <- !app_assoc. reflexivity.
Qed.

Lemma chunk_sentences_groups (sentences : list text) (overlap : Z) :
  exists groups : list (list text),
    concat groups = sentences /\
    Forall (fun group => group <> []) groups /\
    chunk_sentences sentences chunk_size overlap
      = map Chunking.chunk_of groups.
Proof.
  destruct (loop_groups sentences initial [] [])
    as [groups [pending [Hcat [Hc [Hp Hne]]]]]; try reflexivity.
  - constructor.
  - simpl in Hcat. unfold chunk_sentences.
    destruct (truthy _) eqn:Ht.
    + exists (groups ++ [pending]). split; [|split].
      * rewrite concat_app. simpl. now rewrite app_nil_r.
      * apply Forall_app. split; [exact Hne|]. constructor; [|constructor].
        intros ->. rewrite Hp in Ht. discriminate Ht.
      * unfold flush. now rewrite map_app, Hc, Hp.
    + exists groups. split; [|split; assumption].
      apply truthy_false in Ht. rewrite Hp in Ht.
      apply joined_nil_iff in Ht. rewrite Ht, app_nil_r in Hcat. exact Hcat.
Qed.

(** While everything fits, the loop only extends the pending text. *)
Lemma loop_all_fit (rest : list text) :
  forall read : list text,
    len (Chunking.joined (read ++ rest)) <= chunk_size ->
    fold_left (loop_body chunk_size) rest
      {| chunks := []; current_chunk := Chunking.joined read |}
    = {| chunks := []; current_chunk := Chunking.joined (read ++ rest) |}.
Proof.
  induction rest as [|sentence rest IH]; intros read Hfit; simpl.
  - now rewrite app_nil_r.
  - unfold loop_body at 2. simpl.
    assert (Hlen : len (Chunking.joined read) + len sentence < chunk_size).
    { replace (read ++ sentence :: rest) with ((read ++ [sentence]) ++ rest)
        in Hfit by (rewrite <- app_assoc; reflexivity).
      rewrite !joined_app, joined_one, !len_app in Hfit.
      change (len (lit " ")) with 1 in Hfit.
      pose proof (len_nonneg (Chunking.joined rest)). lia. }
    apply Z.ltb_lt in Hlen. rewrite Hlen.
    replace (Chunking.joined read ++ sentence ++ lit " ")
      with (Chunking.joined (read ++ [sentence]))
      by (now rewrite joined_app, joined_one).
    rewrite IH.
    + now rewrite <- app_assoc.
    + now rewrite <- app_assoc.
Qed.
End GroupsOfSentences.

Lemma groups_no_longer_than_sentences (groups : list (list text)) :
  Forall (fun group => group <> []) groups ->
  (length groups <= length (concat groups))%nat.
Proof.
  induction 1 as [|group groups Hg _ IH]; simpl; [lia|].
  rewrite length_app. destruct group; [contradiction|]. simpl. lia.
Qed.

(** X1.  [chunk_text] divides the sentences of the text, in their order,
    into consecutive non-empty groups and returns one chunk for each group:
    the sentences of the group, each followed by a space, stripped.  Every
    sentence goes into exactly one chunk and none is repeated or dropped. *)
Theorem chunk_text_groups_the_sentences :
  forall (split_into_sentences : text -> list text) (txt : text)
         (chunk_size overlap : Z),
    exists groups : list (list text),
      concat groups = split_into_sentences txt /\
      Forall (fun group => group <> []) groups /\
      PDFProcessor.chunk_text split_into_sentences txt chunk_size overlap
        = map (fun group => strip (Chunking.joined group)) groups.
Proof.
  intros split_into_sentences txt chunk_size overlap.
  unfold PDFProcessor.chunk_text.
  destruct (chunk_sentences_groups chunk_size (split_into_sentences txt)
              overlap) as [groups H].
  exists groups. exact H.
Qed.

(** X2.  [chunk_text] returns no chunk exactly when the text has no
    sentence, and never more chunks than there are sentences. *)
Theorem chunk_text_count :
  forall (split_into_sentences : text -> list text) (txt : text)
         (chunk_size overlap : Z),
    let chunks :=
      PDFProcessor.chunk_text split_into_sentences txt chunk_size overlap in
    (chunks = [] <-> split_into_sentences txt = []) /\
    (length chunks <= length (split_into_sentences txt))%nat.
Proof.
  intros split_into_sentences txt chunk_size overlap chunks. subst chunks.
  unfold PDFProcessor.chunk_text.
  destruct (chunk_sentences_groups chunk_size (split_into_sentences txt)
              overlap) as [groups [Hcat [Hne Hchunks]]].
  rewrite Hchunks, <- Hcat, length_map. split.
  - split; intros H.
    + apply map_eq_nil in H. now subst groups.
    + destruct groups as [|group groups]; [reflexivity|].
      inversion Hne as [|? ? Hg _]; subst.
      simpl in H. destruct group; [contradiction | discriminate H].
  - now apply groups_no_longer_than_sentences.
Qed.

(** X3.  When the sentences, each followed by a space, fit in [chunk_size]
    together, [chunk_text] returns one chunk that holds them all. *)
Theorem chunk_text_one_chunk_when_all_fits :
  forall (split_into_sentences : text -> list text) (txt : text)
         (chunk_size overlap : Z),
    split_into_sentences txt <> [] ->
    len (Chunking.joined (split_into_sentences txt)) <= chunk_size ->
    PDFProcessor.chunk_text split_into_sentences txt chunk_size overlap
      = [strip (Chunking.joined (split_into_sentences txt))].
Proof.
  intros split_into_sentences txt chunk_size overlap Hne Hfit.
  unfold PDFProcessor.chunk_text, PDFProcessor.chunk_sentences.
  change PDFProcessor.initial
    with {| PDFProcessor.chunks := [];
            PDFProcessor.current_chunk := Chunking.joined [] |}.
  rewrite loop_all_fit by exact Hfit. simpl.
  destruct (truthy _) eqn:Ht; [reflexivity|].
  apply truthy_false, joined_nil_iff in Ht. contradiction.
Qed.

Lemma chunk_text_one_chunk_when_all_fits_witness :
  PDFProcessor.chunk_text
    (fun _ => [lit "In case of fire, evacuate to the nearest marked exit."])
    (lit "In case of fire, evacuate to the nearest marked exit.") 600 100
  = [strip (Chunking.joined
              [lit "In case of fire, evacuate to the nearest marked exit."])].
Proof.
  apply (chunk_text_one_chunk_when_all_fits
           (fun _ => [lit "In case of fire, evacuate to the nearest marked exit."])
           (lit "In case of fire, evacuate to the nearest marked exit.")
           600 100).
  - discriminate.
  - vm_compute. discriminate.
Defined.

(** ** Queries the backend accepts *)

(** X4.  [validate_query] accepts exactly the queries of at most 1000
    characters in which some character is not whitespace. *)
Theorem validate_query_needs_a_visible_character :
  forall query : text,
    RAGEngine.validate_query query = true <->
    len query <= 1000 /\
    exists c : char, In c query /\ py_isspace c = false.
Proof.
  intros query. rewrite validate_query_spec.
  assert (Hblank : strip query = [] <-> forallb py_isspace query = true)
    by apply strip_by_nil_iff.
  split.
  - intros [Hne Hlen]. split; [exact Hlen|].
    destruct (forallb py_isspace query) eqn:Hall.
    + exfalso. apply Hne. now apply Hblank.
    + assert (Hex : existsb (fun c => negb (py_isspace c)) query = true).
      { clear - Hall. induction query as [|c query IH]; simpl in *;
          [discriminate|].
        destruct (py_isspace c); simpl in *; [now apply IH | reflexivity]. }
      apply existsb_exists in Hex. destruct Hex as [c [Hin Hc]].
      exists c. split; [exact Hin|]. now apply negb_true_iff.
  - intros [Hlen [c [Hin Hc]]]. split; [|exact Hlen].
    intros Hempty. apply Hblank in Hempty.
    rewrite forallb_forall in Hempty. rewrite (Hempty c Hin) in Hc.
    discriminate Hc.
Qed.

Lemma enhance_query_length (query : text) :
  len (RAGEngine.enhance_query query) = len query + 30.
Proof.
  unfold RAGEngine.enhance_query. rewrite !len_app.
  change (len (lit "RA training ")) with 12.
  change (len (lit " procedures policy")) with 18. lia.
Qed.

(** X5.  The enhanced query has no whitespace at either end, so it is never
    blank, whatever the raw query; it passes [validate_query] exactly when
    the raw query has at most 970 characters, the fixed words taking 30 of
    the 1000. *)
Theorem enhance_query_is_stripped_and_30_longer :
  forall query : text,
    strip (RAGEngine.enhance_query query) = RAGEngine.enhance_query query /\
    RAGEngine.enhance_query query <> [] /\
    (RAGEngine.validate_query (RAGEngine.enhance_query query) = true <->
     len query <= 970).
Proof.
  intros query.
  assert (Hshape : RAGEngine.enhance_query query
                   = 82%N :: (lit "A training " ++ query ++ lit " procedures polic")
                       ++ [121%N]).
  { unfold RAGEngine.enhance_query.
    change (lit "RA training ") with (82%N :: lit "A training ").
    change (lit " procedures policy") with (lit " procedures polic" ++ [121%N]).
    simpl. rewrite <- !app_assoc. reflexivity. }
  assert (Hstrip : strip (RAGEngine.enhance_query query)
                   = RAGEngine.enhance_query query).
  { rewrite Hshape. unfold strip. now apply strip_by_between. }
  split; [exact Hstrip|]. split; [rewrite Hshape; discriminate|].
  rewrite validate_query_spec, Hstrip.
  pose proof (enhance_query_length query) as Hlen.
  rewrite Hlen. split.
  - intros [_ H]. lia.
  - intros H. split; [rewrite Hshape; discriminate | lia].
Qed.

(* ================================================================== *)
(** ** Rounding, on every sign *)

Lemma Qfloor_between (x : Q) (n : Z) :
  (inject_Z n <= x)%Q -> (x < inject_Z (n + 1))%Q -> Qfloor x = n.
Proof.
  intros Hlo Hhi.
  assert (H1 : n <= Qfloor x).
  { rewrite <- (Qfloor_Z n). now apply Qfloor_resp_le. }
  assert (H2 : Qfloor x < n + 1).
  { rewrite Zlt_Qlt. eapply Qle_lt_trans; [apply Qfloor_le | exact Hhi]. }
  lia.
Qed.

Lemma round_half_even_comp (x y : Q) :
  (x == y)%Q -> Num.round_half_even x = Num.round_half_even y.
Proof.
  intros Hxy. unfold Num.round_half_even.
  rewrite (Qfloor_comp _ _ Hxy).
  assert (Hc : (x - inject_Z (Qfloor y) ?= 1 # 2)%Q
               = (y - inject_Z (Qfloor y) ?= 1 # 2)%Q).
  { apply Qcompare_comp; [now rewrite Hxy | reflexivity]. }
  now rewrite Hc.
Qed.

(** Rounding half to even is symmetric about zero. *)
Lemma round_half_even_opp (x : Q) :
  Num.round_half_even (- x) = - Num.round_half_even x.
Proof.
  pose proof (Qfloor_le x) as Hlo. pose proof (Qlt_floor x) as Hhi.
  rewrite inject_Z_plus in Hhi. change (inject_Z 1) with 1%Q in Hhi.
  destruct (Qlt_le_dec (inject_Z (Qfloor x)) x) as [Hfrac|Hint].
  - assert (Hf : Qfloor (- x) = - Qfloor x - 1).
    { apply Qfloor_between.
      - unfold Z.sub. rewrite inject_Z_plus, !inject_Z_opp.
        change (inject_Z 1) with 1%Q. lra.
      - replace (- Qfloor x - 1 + 1) with (- Qfloor x) by lia.
        rewrite inject_Z_opp. lra. }
    unfold Num.round_half_even. rewrite Hf.
    assert (Hinj : (inject_Z (- Qfloor x - 1) == - inject_Z (Qfloor x) - 1)%Q).
    { unfold Z.sub. rewrite inject_Z_plus, !inject_Z_opp. reflexivity. }
    pose proof (Qcompare_cases (- x - inject_Z (- Qfloor x - 1)) (1 # 2)) as H1.
    pose proof (Qcompare_cases (x - inject_Z (Qfloor x)) (1 # 2)) as H2.
    assert (Heven : Z.even (- Qfloor x - 1) = negb (Z.even (Qfloor x))).
    { replace (- Qfloor x - 1) with (- (Qfloor x + 1)) by lia.
      rewrite Z.even_opp, Z.even_add. simpl. now destruct (Z.even (Qfloor x)). }
    destruct (- x - inject_Z (- Qfloor x - 1) ?= 1 # 2)%Q;
      destruct (x - inject_Z (Qfloor x) ?= 1 # 2)%Q;
      try (exfalso; lra); try lia.
    rewrite Heven. destruct (Z.even (Qfloor x)); simpl; lia.
  - assert (Hx : (x == inject_Z (Qfloor x))%Q) by lra.
    assert (Hnx : (- x == inject_Z (- Qfloor x))%Q)
      by (rewrite inject_Z_opp; lra).
    rewrite (round_half_even_comp _ _ Hnx), (round_half_even_comp _ _ Hx).
    assert (Hz : forall n, Num.round_half_even (inject_Z n) = n).
    { intros n. unfold Num.round_half_even. rewrite Qfloor_Z.
      assert (Hc : (inject_Z n - inject_Z n ?= 1 # 2)%Q = Lt).
      { apply (proj1 (Qlt_alt _ _)). lra. }
      now rewrite Hc. }
    now rewrite !Hz.
Qed.

Lemma grid_exponent_comp (x y : Q) :
  (x == y)%Q -> Num.grid_exponent x = Num.grid_exponent y.
Proof.
  intros Hxy. unfold Num.grid_exponent.
  now rewrite (Qfloor_comp _ _ (Qabs_wd _ _ Hxy)).
Qed.

Lemma on_grid_comp (x y : Q) :
  (x == y)%Q -> (Num.on_grid x == Num.on_grid y)%Q.
Proof.
  intros Hxy. unfold Num.on_grid. rewrite (grid_exponent_comp _ _ Hxy).
  assert (Hr : Num.round_half_even (x / inject_Z (2 ^ Num.grid_exponent y))
             = Num.round_half_even (y / inject_Z (2 ^ Num.grid_exponent y))).
  { apply round_half_even_comp. now rewrite Hxy. }
  now rewrite Hr.
Qed.

Lemma on_grid_opp (y : Q) : (Num.on_grid (- y) == - Num.on_grid y)%Q.
Proof.
  unfold Num.on_grid.
  assert (Hk : Num.grid_exponent (- y) = Num.grid_exponent y).
  { unfold Num.grid_exponent. now rewrite (Qfloor_comp _ _ (Qabs_opp y)). }
  rewrite Hk.
  set (step := inject_Z (2 ^ Num.grid_exponent y)).
  assert (Hr : Num.round_half_even (- y / step)
             = - Num.round_half_even (y / step)).
  { rewrite <- round_half_even_opp. apply round_half_even_comp.
    unfold Qdiv. ring. }
  rewrite Hr, inject_Z_opp. ring.
Qed.

Lemma fl_comp (x y : Q) : (x == y)%Q -> Num.fl x = Num.fl y.
Proof.
  intros Hxy. unfold Num.fl. apply Qred_complete.
  assert (H : (Num.on_grid (x * Num.scale) == Num.on_grid (y * Num.scale))%Q)
    by (apply on_grid_comp; now rewrite Hxy).
  now rewrite H.
Qed.

Lemma fl_opp (x : Q) : (Num.fl (- x) == - Num.fl x)%Q.
Proof.
  unfold Num.fl. rewrite !Qred_correct.
  assert (H : (Num.on_grid (- x * Num.scale) == - Num.on_grid (x * Num.scale))%Q).
  { rewrite <- on_grid_opp. apply on_grid_comp. ring. }
  rewrite H. unfold Qdiv. ring.
Qed.

(** Rounding to binary64 is monotone. *)
Lemma fl_monotone (x y : Q) : (x <= y)%Q -> (Num.fl x <= Num.fl y)%Q.
Proof.
  intros Hxy.
  destruct (Qlt_le_dec x 0) as [Hx|Hx]; [|now apply fl_mono].
  destruct (Qlt_le_dec y 0) as [Hy|Hy].
  - assert (H : (Num.fl (- y) <= Num.fl (- x))%Q) by (apply fl_mono; lra).
    rewrite !fl_opp in H. lra.
  - assert (H : (0 <= Num.fl (- x))%Q) by (apply fl_nonneg; lra).
    rewrite fl_opp in H. pose proof (fl_nonneg y Hy). lra.
Qed.

(** ** Confidence, monotone *)

Lemma round_3_monotone (x y : Q) :
  (0 <= x)%Q -> (x <= y)%Q -> (Num.round x 3 <= Num.round y 3)%Q.
Proof.
  intros H0 Hxy. unfold Num.round.
  change (inject_Z (10 ^ Z.of_nat 3)) with (1000 # 1)%Q.
  assert (Hk : Num.round_half_even (x * (1000 # 1))
               <= Num.round_half_even (y * (1000 # 1))).
  { apply round_half_even_mono. lra. }
  assert (Hk0 : 0 <= Num.round_half_even (x * (1000 # 1))).
  { apply (round_half_even_bounds _ 0 (Qfloor (x * (1000 # 1)) + 1)).
    - change (inject_Z 0) with 0%Q. lra.
    - apply Qlt_le_weak, Qlt_floor. }
  rewrite Zle_Qle in Hk, Hk0. change (inject_Z 0) with 0%Q in Hk0.
  apply fl_mono.
  - apply Qle_shift_div_l; [reflexivity | lra].
  - apply Qmult_le_compat_r; [exact Hk | discriminate].
Qed.

Lemma fmul_monotone (a b w : Q) :
  (0 <= a)%Q -> (a <= b)%Q -> (0 <= w)%Q ->
  (0 <= Num.fmul a w)%Q /\ (Num.fmul a w <= Num.fmul b w)%Q.
Proof.
  intros Ha Hab Hw. unfold Num.fmul.
  assert (H0 : (0 <= a * w)%Q) by (apply Qmult_le_0_compat; assumption).
  split; [now apply fl_nonneg|].
  apply fl_mono; [exact H0|]. now apply Qmult_le_compat_r.
Qed.

Lemma fadd_monotone (a b a' b' : Q) :
  (0 <= a)%Q -> (a <= a')%Q -> (0 <= b)%Q -> (b <= b')%Q ->
  (0 <= Num.fadd a b)%Q /\ (Num.fadd a b <= Num.fadd a' b')%Q.
Proof.
  intros Ha Haa Hb Hbb. unfold Num.fadd.
  split; [apply fl_nonneg; lra | apply fl_mono; lra].
Qed.

(** X6.  The confidence does not fall when a factor rises: with scores that
    are not negative, raising any of the four scores of a call never lowers
    the value returned, every product, sum and the final [round] being
    rounded to a float on the way. *)
Theorem calculate_confidence_monotone :
  forall (source : Type)
         (relevance relevance' : text -> list source -> Q)
         (completeness completeness' : text -> Q)
         (consistency consistency' : text -> list source -> Q)
         (complexity complexity' : text -> text -> Q)
         (query response : text) (sources : list source),
    (0 <= relevance query sources <= relevance' query sources)%Q ->
    (0 <= completeness response <= completeness' response)%Q ->
    (0 <= consistency response sources <= consistency' response sources)%Q ->
    (0 <= complexity query response <= complexity' query response)%Q ->
    (RAGEngine.calculate_confidence source relevance completeness
       consistency complexity query response sources
     <= RAGEngine.calculate_confidence source relevance' completeness'
          consistency' complexity' query response sources)%Q.
Proof.
  intros source relevance relevance' completeness completeness'
    consistency consistency' complexity complexity' query response sources
    [Hr0 Hr] [Hc0 Hc] [Hs0 Hs] [Hm0 Hm].
  unfold RAGEngine.calculate_confidence. cbv zeta.
  assert (Hw : forall w, (0 <= w)%Q -> (0 <= Num.fl w)%Q)
    by (intros w; apply fl_nonneg).
  destruct (fmul_monotone _ _ (Num.fl (4 # 10)) Hr0 Hr) as [Hp1 Hq1];
    [apply Hw; discriminate|].
  destruct (fmul_monotone _ _ (Num.fl (3 # 10)) Hc0 Hc) as [Hp2 Hq2];
    [apply Hw; discriminate|].
  destruct (fmul_monotone _ _ (Num.fl (2 # 10)) Hs0 Hs) as [Hp3 Hq3];
    [apply Hw; discriminate|].
  destruct (fmul_monotone _ _ (Num.fl (1 # 10)) Hm0 Hm) as [Hp4 Hq4];
    [apply Hw; discriminate|].
  destruct (fadd_monotone _ _ _ _ Hp1 Hq1 Hp2 Hq2) as [Ha1 Hb1].
  destruct (fadd_monotone _ _ _ _ Ha1 Hb1 Hp3 Hq3) as [Ha2 Hb2].
  destruct (fadd_monotone _ _ _ _ Ha2 Hb2 Hp4 Hq4) as [Ha3 Hb3].
  now apply round_3_monotone.
Qed.

(** ** Confidence labels: the bands *)

(** The rounded percentage reaches a threshold when the product is within
    half a percent below it, and does not when it is further below. *)
Lemma percentage_reaches (q : Q) (t : Z) :
  0 <= t ->
  (inject_Z t - (1 # 2) <= Num.fmul q (inject_Z 100))%Q ->
  Num.ge (Num.Math_round (Num.mul (Num.Finite q) 100)) t = true.
Proof.
  intros Ht Hx. unfold Num.mul, Num.overflow.
  set (x := Num.fmul q (inject_Z 100)) in *.
  destruct (Qle_bool (inject_Z (2 ^ 1024)) x) eqn:Hhi; [reflexivity|].
  destruct (Qle_bool x (- inject_Z (2 ^ 1024))) eqn:Hlo.
  - exfalso. apply Qle_bool_iff in Hlo.
    assert (Hbig : (0 < inject_Z (2 ^ 1024))%Q) by (apply two_pow_positive; lia).
    assert (H0 : (0 <= inject_Z t)%Q)
      by (change 0%Q with (inject_Z 0); now rewrite <- Zle_Qle).
    assert (Hone : (1 <= inject_Z (2 ^ 1024))%Q).
    { change 1%Q with (inject_Z 1). rewrite <- Zle_Qle.
      assert (0 < 2 ^ 1024) by (apply Z.pow_pos_nonneg; lia). lia. }
    lra.
  - unfold Num.Math_round, Num.ge. apply Qle_bool_iff. rewrite <- Zle_Qle.
    rewrite <- (Qfloor_Z t). apply Qfloor_resp_le. lra.
Qed.

Lemma percentage_misses (q : Q) (t : Z) :
  t <= 100 ->
  (Num.fmul q (inject_Z 100) < inject_Z t - (1 # 2))%Q ->
  Num.ge (Num.Math_round (Num.mul (Num.Finite q) 100)) t = false.
Proof.
  intros Ht Hx. unfold Num.mul, Num.overflow.
  set (x := Num.fmul q (inject_Z 100)) in *.
  destruct (Qle_bool (inject_Z (2 ^ 1024)) x) eqn:Hhi.
  - exfalso. apply Qle_bool_iff in Hhi.
    assert (H100 : (inject_Z t <= inject_Z 100)%Q) by now rewrite <- Zle_Qle.
    assert (Hbig : (inject_Z 100 <= inject_Z (2 ^ 1024))%Q).
    { rewrite <- Zle_Qle. change 100 with (Z.of_nat 100).
      vm_compute. discriminate. }
    lra.
  - destruct (Qle_bool x (- inject_Z (2 ^ 1024))); [reflexivity|].
    unfold Num.Math_round, Num.ge. apply not_true_is_false. intros Hge. apply Qle_bool_iff in Hge.
    rewrite <- Zle_Qle in Hge.
    assert (Hfl : (inject_Z (Qfloor (x + (1 # 2))) <= x + (1 # 2))%Q)
      by apply Qfloor_le.
    rewrite Zle_Qle in Hge. lra.
Qed.

(** The product [q * 100] as a float, between the products of the bounds. *)
Lemma product_between (q lo hi : Q) :
  (lo <= q)%Q -> (q <= hi)%Q ->
  (Num.fmul lo (inject_Z 100) <= Num.fmul q (inject_Z 100))%Q /\
  (Num.fmul q (inject_Z 100) <= Num.fmul hi (inject_Z 100))%Q.
Proof.
  intros Hlo Hhi. unfold Num.fmul.
  change (inject_Z 100) with (100 # 1)%Q.
  split; apply fl_monotone; lra.
Qed.

Lemma label_of_flags (c : Num.number) (b80 b60 b40 : bool) :
  Num.ge (Num.Math_round (Num.mul c 100)) 80 = b80 ->
  Num.ge (Num.Math_round (Num.mul c 100)) 60 = b60 ->
  Num.ge (Num.Math_round (Num.mul c 100)) 40 = b40 ->
  Utils.formatConfidence c =
    (if b80 then lit "High" else if b60 then lit "Medium"
     else if b40 then lit "Low" else lit "Very Low") /\
  Utils.getConfidenceColor c =
    (if b80 then lit "text-green-600" else if b60 then lit "text-yellow-600"
     else if b40 then lit "text-orange-600" else lit "text-red-600").
Proof.
  intros H80 H60 H40. unfold Utils.formatConfidence, Utils.getConfidenceColor.
  cbv zeta. now rewrite H80, H60, H40.
Qed.

Lemma reaches_from (q lo : Q) (t : Z) :
  0 <= t -> (lo <= q)%Q ->
  (inject_Z t - (1 # 2) <= Num.fmul lo (inject_Z 100))%Q ->
  Num.ge (Num.Math_round (Num.mul (Num.Finite q) 100)) t = true.
Proof.
  intros Ht Hlo Hreach. apply percentage_reaches; [exact Ht|].
  destruct (product_between q lo q Hlo (Qle_refl q)) as [H _].
  eapply Qle_trans; [exact Hreach | exact H].
Qed.

Lemma misses_from (q hi : Q) (t : Z) :
  t <= 100 -> (q <= hi)%Q ->
  (Num.fmul hi (inject_Z 100) < inject_Z t - (1 # 2))%Q ->
  Num.ge (Num.Math_round (Num.mul (Num.Finite q) 100)) t = false.
Proof.
  intros Ht Hhi Hmiss. apply percentage_misses; [exact Ht|].
  destruct (product_between q q hi (Qle_refl q) Hhi) as [_ H].
  eapply Qle_lt_trans; [exact H | exact Hmiss].
Qed.

Lemma band_high (q : Q) :
  (795 # 1000 <= q)%Q ->
  Num.ge (Num.Math_round (Num.mul (Num.Finite q) 100)) 80 = true.
Proof.
  intros H. apply (reaches_from q (795 # 1000)); [lia | exact H|].
  vm_compute. discriminate.
Qed.

Lemma band_not_high (q : Q) :
  (q <= 794 # 1000)%Q ->
  Num.ge (Num.Math_round (Num.mul (Num.Finite q) 100)) 80 = false.
Proof.
  intros H. apply (misses_from q (794 # 1000)); [lia | exact H|].
  vm_compute. reflexivity.
Qed.

Lemma band_medium (q : Q) :
  (595 # 1000 <= q)%Q ->
  Num.ge (Num.Math_round (Num.mul (Num.Finite q) 100)) 60 = true.
Proof.
  intros H. apply (reaches_from q (595 # 1000)); [lia | exact H|].
  vm_compute. discriminate.
Qed.

Lemma band_not_medium (q : Q) :
  (q <= 594 # 1000)%Q ->
  Num.ge (Num.Math_round (Num.mul (Num.Finite q) 100)) 60 = false.
Proof.
  intros H. apply (misses_from q (594 # 1000)); [lia | exact H|].
  vm_compute. reflexivity.
Qed.

Lemma band_low (q : Q) :
  (395 # 1000 <= q)%Q ->
  Num.ge (Num.Math_round (Num.mul (Num.Finite q) 100)) 40 = true.
Proof.
  intros H. apply (reaches_from q (395 # 1000)); [lia | exact H|].
  vm_compute. discriminate.
Qed.

Lemma band_not_low (q : Q) :
  (q <= 394 # 1000)%Q ->
  Num.ge (Num.Math_round (Num.mul (Num.Finite q) 100)) 40 = false.
Proof.
  intros H. apply (misses_from q (394 # 1000)); [lia | exact H|].
  vm_compute. reflexivity.
Qed.

(** X7.  The bands of a finite confidence [q], as a real number: from 0.795
    the label is High and the colour green, from 0.595 to 0.794 Medium and
    yellow, from 0.395 to 0.594 Low and orange, up to 0.394 Very Low and red;
    the product [q * 100] is rounded to a float before [Math.round], which
    the bounds allow for. *)
Theorem confidence_bands (q : Q) :
  ((795 # 1000 <= q)%Q ->
   Utils.formatConfidence (Num.Finite q) = lit "High" /\
   Utils.getConfidenceColor (Num.Finite q) = lit "text-green-600") /\
  ((595 # 1000 <= q)%Q -> (q <= 794 # 1000)%Q ->
   Utils.formatConfidence (Num.Finite q) = lit "Medium" /\
   Utils.getConfidenceColor (Num.Finite q) = lit "text-yellow-600") /\
  ((395 # 1000 <= q)%Q -> (q <= 594 # 1000)%Q ->
   Utils.formatConfidence (Num.Finite q) = lit "Low" /\
   Utils.getConfidenceColor (Num.Finite q) = lit "text-orange-600") /\
  ((q <= 394 # 1000)%Q ->
   Utils.formatConfidence (Num.Finite q) = lit "Very Low" /\
   Utils.getConfidenceColor (Num.Finite q) = lit "text-red-600").
Proof.
  split; [|split; [|split]].
  - intros H.
    exact (label_of_flags _ true _ _ (band_high q H) eq_refl eq_refl).
  - intros Hlo Hhi.
    exact (label_of_flags _ false true _ (band_not_high q Hhi)
             (band_medium q Hlo) eq_refl).
  - intros Hlo Hhi.
    assert (H80 : (q <= 794 # 1000)%Q) by lra.
    exact (label_of_flags _ false false true (band_not_high q H80)
             (band_not_medium q Hhi) (band_low q Hlo)).
  - intros H.
    assert (H80 : (q <= 794 # 1000)%Q) by lra.
    assert (H60 : (q <= 594 # 1000)%Q) by lra.
    exact (label_of_flags _ false false false (band_not_high q H80)
             (band_not_medium q H60) (band_not_low q H)).
Qed.

(** A score of [k] thousandths, as [round(., 3)] returns it. *)
Lemma thousandths_at_least (k lo : Z) :
  lo <= k ->
  (Num.fl (lo # 1000) <= Num.fl (inject_Z k / inject_Z 1000))%Q.
Proof.
  intros H. apply fl_monotone.
  apply Qle_shift_div_l; [reflexivity|].
  rewrite Zle_Qle in H. unfold Qle in *. simpl in *. lia.
Qed.

Lemma thousandths_at_most (k hi : Z) :
  k <= hi ->
  (Num.fl (inject_Z k / inject_Z 1000) <= Num.fl (hi # 1000))%Q.
Proof.
  intros H. apply fl_monotone.
  apply Qle_shift_div_r; [reflexivity|].
  rewrite Zle_Qle in H. unfold Qle in *. simpl in *. lia.
Qed.

(** A threshold of [t] percent is reached by the scores of [k0] thousandths
    and more, and by no score below. *)
Lemma thousandths_reach (k k0 t : Z) :
  0 <= t -> k0 <= k ->
  (inject_Z t - (1 # 2) <= Num.fmul (Num.fl (k0 # 1000)) (inject_Z 100))%Q ->
  Num.ge (Num.Math_round
            (Num.mul (Num.Finite (Num.fl (inject_Z k / inject_Z 1000))) 100)) t
  = true.
Proof.
  intros Ht Hk H.
  exact (reaches_from _ _ t Ht (thousandths_at_least k k0 Hk) H).
Qed.

Lemma thousandths_miss (k k0 t : Z) :
  t <= 100 -> k <= k0 ->
  (Num.fmul (Num.fl (k0 # 1000)) (inject_Z 100) < inject_Z t - (1 # 2))%Q ->
  Num.ge (Num.Math_round
            (Num.mul (Num.Finite (Num.fl (inject_Z k / inject_Z 1000))) 100)) t
  = false.
Proof.
  intros Ht Hk H.
  exact (misses_from _ _ t Ht (thousandths_at_most k k0 Hk) H).
Qed.

(** X8.  The label of a score that went through [round(., 3)], as
    [calculate_confidence] returns it: with [k] the number of thousandths,
    the label is High from 795, Medium from 595, Low from 395 and Very Low
    below, neither the float nearest to [k / 1000] nor the float product
    with 100 moving a score across a band. *)
Theorem rounded_score_label :
  forall x : Q,
    let k := Num.round_half_even (x * inject_Z 1000) in
    Utils.formatConfidence (Num.Finite (Num.round x 3)) =
      (if 795 <=? k then lit "High"
       else if 595 <=? k then lit "Medium"
       else if 395 <=? k then lit "Low"
       else lit "Very Low").
Proof.
  intros x k. unfold Num.round.
  change (inject_Z (10 ^ Z.of_nat 3)) with (inject_Z 1000). fold k.
  set (d := Num.Finite (Num.fl (inject_Z k / inject_Z 1000))).
  assert (H80 : Num.ge (Num.Math_round (Num.mul d 100)) 80 = (795 <=? k)).
  { destruct (Z.leb_spec 795 k) as [H|H].
    - apply (thousandths_reach k 795 80); [lia | exact H|].
      vm_compute. discriminate.
    - apply (thousandths_miss k 794 80); [lia | lia|].
      vm_compute. reflexivity. }
  assert (H60 : Num.ge (Num.Math_round (Num.mul d 100)) 60 = (595 <=? k)).
  { destruct (Z.leb_spec 595 k) as [H|H].
    - apply (thousandths_reach k 595 60); [lia | exact H|].
      vm_compute. discriminate.
    - apply (thousandths_miss k 594 60); [lia | lia|].
      vm_compute. reflexivity. }
  assert (H40 : Num.ge (Num.Math_round (Num.mul d 100)) 40 = (395 <=? k)).
  { destruct (Z.leb_spec 395 k) as [H|H].
    - apply (thousandths_reach k 395 40); [lia | exact H|].
      vm_compute. discriminate.
    - apply (thousandths_miss k 394 40); [lia | lia|].
      vm_compute. reflexivity. }
  exact (proj1 (label_of_flags d _ _ _ H80 H60 H40)).
Qed.

(** ** Confidence labels: their order *)

Lemma overflow_cases (x : Q) :
  (Num.overflow x = Num.PosInfinity /\ (inject_Z (2 ^ 1024) <= x)%Q) \/
  (Num.overflow x = Num.NegInfinity /\ (x <= - inject_Z (2 ^ 1024))%Q) \/
  (Num.overflow x = Num.Finite x /\
   (x < inject_Z (2 ^ 1024))%Q /\ (- inject_Z (2 ^ 1024) < x)%Q).
Proof.
  unfold Num.overflow.
  destruct (Qle_bool (inject_Z (2 ^ 1024)) x) eqn:Hhi.
  - left. split; [reflexivity | now apply Qle_bool_iff].
  - destruct (Qle_bool x (- inject_Z (2 ^ 1024))) eqn:Hlo.
    + right; left. split; [reflexivity | now apply Qle_bool_iff].
    + right; right. split; [reflexivity|]. split.
      * apply Qnot_le_lt. intros H. apply Qle_bool_iff in H. congruence.
      * apply Qnot_le_lt. intros H. apply Qle_bool_iff in H. congruence.
Qed.

(** A threshold that a confidence reaches is reached by every greater one. *)
Lemma threshold_monotone (x y : Num.number) (t : Z) :
  ConfidenceBands.number_le x y ->
  Num.ge (Num.Math_round (Num.mul x 100)) t = true ->
  Num.ge (Num.Math_round (Num.mul y 100)) t = true.
Proof.
  intros Hle Hx.
  destruct x as [a| | |], y as [b| | |]; simpl in Hle; try contradiction;
    try reflexivity; try discriminate.
  unfold Num.mul in *.
  assert (Hab : (Num.fmul a (inject_Z 100) <= Num.fmul b (inject_Z 100))%Q).
  { unfold Num.fmul. apply fl_monotone.
    apply Qmult_le_compat_r; [exact Hle | discriminate]. }
  assert (Hbig : (0 < inject_Z (2 ^ 1024))%Q).
  { apply two_pow_positive. lia. }
  destruct (overflow_cases (Num.fmul a (inject_Z 100)))
    as [[Ea Ha]|[[Ea Ha]|[Ea [Ha Ha']]]];
    destruct (overflow_cases (Num.fmul b (inject_Z 100)))
    as [[Eb Hb]|[[Eb Hb]|[Eb [Hb Hb']]]];
    rewrite Ea in Hx; rewrite Eb; try reflexivity; try discriminate;
    try lra.
  unfold Num.Math_round, Num.ge in *.
  apply Qle_bool_iff. apply Qle_bool_iff in Hx.
  eapply Qle_trans; [exact Hx|].
  rewrite <- Zle_Qle. apply Qfloor_resp_le. lra.
Qed.

Lemma label_rank_of_flags (b80 b60 b40 : bool) :
  ConfidenceBands.label_rank
    (if b80 then lit "High" else if b60 then lit "Medium"
     else if b40 then lit "Low" else lit "Very Low")
  = (if b80 then 3 else if b60 then 2 else if b40 then 1 else 0)%nat.
Proof. destruct b80, b60, b40; reflexivity. Qed.

(** X9.  The label never falls when the confidence rises, on all numbers
    but NaN, the infinities included: of two confidences the greater has the
    same label or a higher one. *)
Theorem formatConfidence_monotone :
  forall x y : Num.number,
    ConfidenceBands.number_le x y ->
    (ConfidenceBands.label_rank (Utils.formatConfidence x)
     <= ConfidenceBands.label_rank (Utils.formatConfidence y))%nat.
Proof.
  intros x y Hle.
  rewrite (proj1 (label_of_flags x _ _ _ eq_refl eq_refl eq_refl)).
  rewrite (proj1 (label_of_flags y _ _ _ eq_refl eq_refl eq_refl)).
  rewrite !label_rank_of_flags.
  pose proof (threshold_monotone x y 80 Hle) as H80.
  pose proof (threshold_monotone x y 60 Hle) as H60.
  pose proof (threshold_monotone x y 40 Hle) as H40.
  destruct (Num.ge (Num.Math_round (Num.mul x 100)) 80);
    [rewrite (H80 eq_refl); lia|].
  destruct (Num.ge (Num.Math_round (Num.mul x 100)) 60);
    [rewrite (H60 eq_refl);
     destruct (Num.ge (Num.Math_round (Num.mul y 100)) 80); lia|].
  destruct (Num.ge (Num.Math_round (Num.mul x 100)) 40);
    [rewrite (H40 eq_refl);
     destruct (Num.ge (Num.Math_round (Num.mul y 100)) 80),
              (Num.ge (Num.Math_round (Num.mul y 100)) 60); lia|].
  lia.
Qed.

Lemma formatConfidence_monotone_witness :
  ConfidenceBands.number_le (Num.Finite (1 # 2)) Num.PosInfinity /\
  (ConfidenceBands.label_rank (Utils.formatConfidence (Num.Finite (1 # 2)))
   <= ConfidenceBands.label_rank (Utils.formatConfidence Num.PosInfinity))%nat.
Proof.
  split; [exact I|].
  apply (formatConfidence_monotone (Num.Finite (1 # 2)) Num.PosInfinity).
  exact I.
Defined.

Lemma calculate_confidence_monotone_witness :
  let low := fun (_ : text) (_ : list unit) => (1 # 2)%Q in
  let high := fun (_ : text) (_ : list unit) => (3 # 4)%Q in
  let half := fun _ : text => (1 # 2)%Q in
  let pair := fun _ _ : text => (1 # 2)%Q in
  (0 <= low [] [] <= high [] [])%Q /\
  (RAGEngine.calculate_confidence unit low half low pair [] [] []
   <= RAGEngine.calculate_confidence unit high half low pair [] [] [])%Q.
Proof.
  cbv zeta. split; [split; discriminate|].
  apply (calculate_confidence_monotone unit
           (fun _ _ => (1 # 2)%Q) (fun _ _ => (3 # 4)%Q)
           (fun _ => (1 # 2)%Q) (fun _ => (1 # 2)%Q)
           (fun _ _ => (1 # 2)%Q) (fun _ _ => (1 # 2)%Q)
           (fun _ _ => (1 # 2)%Q) (fun _ _ => (1 # 2)%Q) [] [] []);
    split; discriminate.
Defined.

(* ================================================================== *)
(** ** The document name of a link *)

Lemma split_on_pieces (sep : char) (s : text) :
  JsString.split_on sep s <> [] /\
  Forall (fun piece => ~ In sep piece) (JsString.split_on sep s).
Proof.
  induction s as [|c s [IHne IHall]]; simpl.
  - split; [discriminate|]. constructor; [intros []|constructor].
  - destruct (N.eqb_spec c sep) as [Heq|Hne].
    + split; [discriminate|]. constructor; [intros []|exact IHall].
    + destruct (JsString.split_on sep s) as [|piece pieces];
        [now contradiction IHne|].
      split; [discriminate|].
      inversion IHall as [|? ? Hpiece Hpieces]; subst.
      constructor; [|exact Hpieces].
      intros [Hin|Hin]; [now apply Hne | now apply Hpiece].
Qed.

Lemma last_of_all {A : Type} (P : A -> Prop) (l : list A) (d : A) :
  Forall P l -> P d -> P (last l d).
Proof.
  intros Hall Hd. induction Hall as [|x l Hx Hall IH]; [exact Hd|].
  destruct l; [exact Hx | exact IH].
Qed.

(** The pieces of a path are the pieces of its directory and the pieces of
    what follows the slash. *)
Lemma split_on_app (sep : char) (d f : text) :
  JsString.split_on sep (d ++ sep :: f)
  = JsString.split_on sep d ++ JsString.split_on sep f.
Proof.
  induction d as [|c d IH]; simpl.
  - now rewrite N.eqb_refl.
  - destruct (N.eqb_spec c sep) as [Heq|Hne].
    + now rewrite IH.
    + rewrite IH.
      destruct (split_on_pieces sep d) as [Hne' _].
      destruct (JsString.split_on sep d); [now contradiction Hne'|].
      reflexivity.
Qed.

Lemma split_on_one_piece (sep : char) (f : text) :
  ~ In sep f -> JsString.split_on sep f = [f].
Proof.
  induction f as [|c f IH]; intros Hno; simpl; [reflexivity|].
  destruct (N.eqb_spec c sep) as [Heq|Hne].
  - exfalso. apply Hno. now left.
  - rewrite IH; [reflexivity|]. intros Hin. apply Hno. now right.
Qed.

Lemma last_piece_of_path (d f : text) :
  ~ In DocumentName.slash f ->
  last (JsString.split_on DocumentName.slash (d ++ DocumentName.slash :: f)) []
  = f.
Proof.
  intros Hno. rewrite split_on_app, (split_on_one_piece _ f Hno).
  apply last_last.
Qed.

Lemma replace_first_unfold (pattern replacement s : text) :
  JsString.replace_first pattern replacement s
  = if JsString.starts_with pattern s
    then replacement ++ skipn (length pattern) s
    else match s with
         | [] => []
         | c :: s' => c :: JsString.replace_first pattern replacement s'
         end.
Proof. destruct s; reflexivity. Qed.

(** Removing a pattern adds no character. *)
Lemma replace_first_removes (pattern s : text) (c : char) :
  In c (JsString.replace_first pattern [] s) -> In c s.
Proof.
  induction s as [|x s IH]; rewrite replace_first_unfold.
  - destruct (JsString.starts_with pattern []); simpl;
      [rewrite skipn_nil|]; intros [].
  - destruct (JsString.starts_with pattern (x :: s)).
    + intros Hin. rewrite <- (firstn_skipn (length pattern) (x :: s)).
      apply in_or_app. now right.
    + intros [Hin|Hin]; [now left | right; now apply IH].
Qed.

Lemma starts_with_itself (pattern rest : text) :
  JsString.starts_with pattern (pattern ++ rest) = true.
Proof.
  induction pattern as [|p pattern IH]; [now destruct rest|].
  simpl. now rewrite N.eqb_refl.
Qed.

Lemma skipn_itself {A : Type} (l rest : list A) :
  skipn (length l) (l ++ rest) = rest.
Proof. induction l; [reflexivity | assumption]. Qed.

(** The first [.pdf] of a name whose stem has no dot is the one after the
    stem. *)
Lemma replace_first_pdf (stem rest : text) :
  ~ In DocumentName.dot stem ->
  JsString.replace_first (lit ".pdf") [] (stem ++ lit ".pdf" ++ rest)
  = stem ++ rest.
Proof.
  induction stem as [|c stem IH]; intros Hno.
  - rewrite !app_nil_l, replace_first_unfold, starts_with_itself.
    rewrite app_nil_l. apply (skipn_itself (lit ".pdf")).
  - rewrite replace_first_unfold.
    assert (Hc : (46 =? c)%N = false).
    { apply N.eqb_neq. intros Heq. apply Hno. left. now symmetry. }
    change (JsString.starts_with (lit ".pdf") ((c :: stem) ++ lit ".pdf" ++ rest))
      with ((46 =? c)%N &&
            JsString.starts_with (lit "pdf") (stem ++ lit ".pdf" ++ rest)).
    rewrite Hc. simpl. f_equal. apply IH. intros Hin. apply Hno. now right.
Qed.

Lemma replace_first_absent (stem : text) :
  ~ In DocumentName.dot stem ->
  JsString.replace_first (lit ".pdf") [] stem = stem.
Proof.
  induction stem as [|c stem IH]; intros Hno; [reflexivity|].
  rewrite replace_first_unfold.
  assert (Hc : (46 =? c)%N = false).
  { apply N.eqb_neq. intros Heq. apply Hno. left. now symmetry. }
  change (JsString.starts_with (lit ".pdf") (c :: stem))
    with ((46 =? c)%N && JsString.starts_with (lit "pdf") stem).
  rewrite Hc. simpl. f_equal. apply IH. intros Hin. apply Hno. now right.
Qed.

(** X10.  The name shown for a link has no slash, no underscore and no
    hyphen, whatever the link. *)
Theorem extractDocumentName_has_no_separator :
  forall (link : text) (c : char),
    In c (DocumentName.extractDocumentName link) ->
    c <> DocumentName.slash /\ c <> DocumentName.underscore /\
    c <> DocumentName.hyphen.
Proof.
  intros link c Hin. unfold DocumentName.extractDocumentName in Hin.
  cbv zeta in Hin. unfold DocumentName.spaces_for_separators in Hin.
  apply in_map_iff in Hin. destruct Hin as [x [Hx Hin]].
  apply replace_first_removes in Hin.
  assert (Hslash : x <> DocumentName.slash).
  { intros Heq. subst x. revert Hin.
    apply (last_of_all (fun piece => ~ In DocumentName.slash piece));
      [apply split_on_pieces | intros []]. }
  destruct (N.eqb_spec x DocumentName.underscore) as [Hu|Hu];
    [subst c; simpl; repeat split; discriminate|].
  destruct (N.eqb_spec x DocumentName.hyphen) as [Hh|Hh];
    [subst c; simpl; repeat split; discriminate|].
  simpl in Hx. subst c. repeat split; assumption.
Qed.

Lemma extractDocumentName_has_no_separator_witness :
  let link := lit "/documents/fire_safety-plan.pdf" in
  In 102%N (DocumentName.extractDocumentName link) /\
  (102%N <> DocumentName.slash /\ 102%N <> DocumentName.underscore /\
   102%N <> DocumentName.hyphen).
Proof.
  intros link.
  assert (H : In 102%N (DocumentName.extractDocumentName link))
    by (vm_compute; now left).
  split; [exact H|].
  exact (extractDocumentName_has_no_separator link 102%N H).
Defined.

(** X11.  The name shown for a path is made from what follows its last
    slash: for a file name whose stem has no dot, the stem and whatever
    follows the first [.pdf], with spaces for underscores and hyphens,
    whether or not a directory comes before; a name without a dot is shown
    whole. *)
Theorem extractDocumentName_of_path :
  forall directory stem rest : text,
    ~ In DocumentName.slash stem -> ~ In DocumentName.slash rest ->
    ~ In DocumentName.dot stem ->
    DocumentName.extractDocumentName
      (directory ++ DocumentName.slash :: stem ++ lit ".pdf" ++ rest)
    = DocumentName.spaces_for_separators (stem ++ rest) /\
    DocumentName.extractDocumentName (stem ++ lit ".pdf" ++ rest)
    = DocumentName.spaces_for_separators (stem ++ rest) /\
    DocumentName.extractDocumentName (directory ++ DocumentName.slash :: stem)
    = DocumentName.spaces_for_separators stem.
Proof.
  intros directory stem rest Hstem Hrest Hdot.
  assert (Hname : ~ In DocumentName.slash (stem ++ lit ".pdf" ++ rest)).
  { intros Hin. apply in_app_or in Hin. destruct Hin as [Hin|Hin];
      [now apply Hstem|].
    apply in_app_or in Hin. destruct Hin as [Hin|Hin]; [|now apply Hrest].
    simpl in Hin. unfold DocumentName.slash in Hin.
    repeat (destruct Hin as [Hin|Hin]; [discriminate|]). exact Hin. }
  unfold DocumentName.extractDocumentName. cbv zeta.
  split; [|split].
  - rewrite last_piece_of_path by exact Hname.
    now rewrite replace_first_pdf.
  - rewrite (split_on_one_piece _ _ Hname). cbn [last].
    now rewrite replace_first_pdf.
  - rewrite last_piece_of_path by exact Hstem.
    now rewrite replace_first_absent.
Qed.

Lemma extractDocumentName_of_path_witness :
  DocumentName.extractDocumentName
    (lit "/documents/RA_Emergency-Guide" ++ DocumentName.slash ::
       lit "fire_safety" ++ lit ".pdf" ++ lit ".pdf")
  = lit "fire safety.pdf".
Proof.
  refine (eq_trans
    (proj1 (extractDocumentName_of_path (lit "/documents/RA_Emergency-Guide")
              (lit "fire_safety") (lit ".pdf") _ _ _)) _).
  - vm_compute. intuition discriminate.
  - vm_compute. intuition discriminate.
  - vm_compute. intuition discriminate.
  - reflexivity.
Defined.

(* ================================================================== *)
(** ** The chat input on the page *)

Lemma trim_idempotent (s : text) : trim (trim s) = trim s.
Proof. apply strip_by_idempotent. Qed.

(** X12.  What the chat input passes on is never blank and has no
    whitespace at either end; trimming it again changes nothing. *)
Theorem handleSubmit_sends_trimmed_text :
  forall (p : ChatInput.props) (message query : text),
    In query (ChatInput.onSendMessage_calls (ChatInput.handleSubmit p message)) ->
    query <> [] /\ JsString.clean_ends js_isspace query /\ trim query = query.
Proof.
  intros p message query Hin. unfold ChatInput.handleSubmit in Hin.
  cbv zeta in Hin.
  destruct (truthy (trim message)) eqn:Htruthy; simpl in Hin;
    [|contradiction].
  destruct (ChatInput.isLoading p || ChatInput.disabled p); simpl in Hin;
    [contradiction|].
  destruct Hin as [<-|[]].
  split; [now apply truthy_true|].
  split; [apply strip_by_clean_ends | apply trim_idempotent].
Qed.

Lemma handleSubmit_sends_trimmed_text_witness :
  let p := {| ChatInput.isLoading := false; ChatInput.disabled := false |} in
  let query := lit "Where do we assemble?" in
  In query (ChatInput.onSendMessage_calls
              (ChatInput.handleSubmit p (lit "  Where do we assemble? "))) /\
  (query <> [] /\ JsString.clean_ends js_isspace query /\ trim query = query).
Proof.
  intros p query.
  assert (H : In query (ChatInput.onSendMessage_calls
                          (ChatInput.handleSubmit p
                             (lit "  Where do we assemble? "))))
    by (vm_compute; now left).
  split; [exact H|].
  exact (handleSubmit_sends_trimmed_text p _ query H).
Defined.

(** Whether a submit goes through: the text is not blank, no request is
    pending and the API is marked available. *)
Lemma submit_nothing (st : Page.Home.state) (message : text)
  (start : Page.clock) (r : Page.awaited) (finish : Page.clock) :
  truthy (trim message) && negb (Page.Home.isLoading st)
    && Page.Home.apiAvailable st = false ->
  HomePage.submit st message start r finish = Page.Mounted st.
Proof.
  unfold HomePage.submit, ChatInput.handleSubmit, HomePage.chatInputProps.
  cbv zeta. simpl ChatInput.isLoading. simpl ChatInput.disabled.
  destruct (truthy (trim message)); simpl; [|reflexivity].
  destruct (Page.Home.isLoading st); simpl; [reflexivity|].
  destruct (Page.Home.apiAvailable st); simpl; [discriminate | reflexivity].
Qed.

Lemma submit_request (st : Page.Home.state) (message : text)
  (start : Page.clock) (r : Page.awaited) (finish : Page.clock) :
  truthy (trim message) && negb (Page.Home.isLoading st)
    && Page.Home.apiAvailable st = true ->
  HomePage.submit st message start r finish
  = Page.after_await (Page.now start) (trim message) r finish
      (Page.before_await st (trim message) start).
Proof.
  intros Hsend. apply andb_prop in Hsend. destruct Hsend as [Hsend Havailable].
  apply andb_prop in Hsend. destruct Hsend as [Htruthy Hidle].
  apply negb_true_iff in Hidle.
  unfold HomePage.submit, ChatInput.handleSubmit, HomePage.chatInputProps.
  cbv zeta. simpl ChatInput.isLoading. simpl ChatInput.disabled.
  rewrite Htruthy, Hidle, Havailable. simpl.
  unfold Page.handleSendMessage.
  now rewrite trim_idempotent, Htruthy, Hidle.
Qed.

(** X13.  A submit on the page is one request or nothing: when the text is
    not blank, no request is pending and the API is available, the page runs
    [handleSendMessage] on the trimmed text, whose own guard lets it pass;
    otherwise the page is left as it is. *)
Theorem submit_makes_one_request_or_none :
  forall (st : Page.Home.state) (message : text) (start : Page.clock)
         (r : Page.awaited) (finish : Page.clock),
    HomePage.submit st message start r finish
    = if truthy (trim message) && negb (Page.Home.isLoading st)
         && Page.Home.apiAvailable st
      then Page.after_await (Page.now start) (trim message) r finish
             (Page.before_await st (trim message) start)
      else Page.Mounted st.
Proof.
  intros st message start r finish.
  destruct (truthy (trim message) && negb (Page.Home.isLoading st)
            && Page.Home.apiAvailable st) eqn:Hsend.
  - now apply submit_request.
  - now apply submit_nothing.
Qed.

(** ** The page, event by event *)

Lemma react_unmounted (s : HomePage.session) (e : HomePage.event) :
  HomePage.shown s = Page.Unmounted -> HomePage.react s e = s.
Proof. intros H. unfold HomePage.react. now rewrite H. Qed.

(** A submit starts a request under the three conditions, and is nothing
    otherwise. *)
Lemma react_submit (s : HomePage.session) (st : Page.Home.state)
  (message : text) (start : Page.clock) :
  HomePage.shown s = Page.Mounted st ->
  HomePage.react s (HomePage.Submit message start)
  = if truthy (trim message) && negb (Page.Home.isLoading st)
       && Page.Home.apiAvailable st
    then {| HomePage.shown :=
              Page.Mounted (Page.before_await st (trim message) start);
            HomePage.pending := Some (Page.now start, trim message);
            HomePage.checking := HomePage.checking s;
            HomePage.requests := HomePage.requests s ++ [trim message] |}
    else s.
Proof.
  intros Hshown. unfold HomePage.react. rewrite Hshown.
  unfold ChatInput.handleSubmit, HomePage.chatInputProps. cbv zeta.
  simpl ChatInput.isLoading. simpl ChatInput.disabled.
  destruct (truthy (trim message)) eqn:Htruthy; simpl; [|reflexivity].
  destruct (Page.Home.isLoading st) eqn:Hloading; simpl; [reflexivity|].
  destruct (Page.Home.apiAvailable st); simpl; [|reflexivity].
  now rewrite trim_idempotent, Htruthy.
Qed.

(** A submit and the settling of its request are, together, the submit of
    [HomePage.submit]. *)
Lemma request_in_two_events (s : HomePage.session) (st : Page.Home.state)
  (message : text) (start : Page.clock) (r : Page.awaited)
  (finish : Page.clock) :
  HomePage.shown s = Page.Mounted st ->
  HomePage.pending s = None ->
  HomePage.shown
    (HomePage.run_from s [HomePage.Submit message start;
                          HomePage.ChatSettled r finish])
  = HomePage.submit st message start r finish.
Proof.
  intros Hshown Hpending. unfold HomePage.run_from. simpl.
  rewrite (react_submit s st message start Hshown).
  destruct (truthy (trim message) && negb (Page.Home.isLoading st)
            && Page.Home.apiAvailable st) eqn:Hsend.
  - rewrite (submit_request _ _ _ _ _ Hsend). reflexivity.
  - rewrite (submit_nothing _ _ _ _ _ Hsend).
    unfold HomePage.react. now rewrite Hshown, Hpending.
Qed.

(** Once the health check has settled and the API is marked unavailable,
    or the page is unmounted, no request is sent any more. *)
Lemma react_when_unavailable (s : HomePage.session) (e : HomePage.event) :
  HomePage.checking s = false ->
  (HomePage.shown s = Page.Unmounted \/
   exists st, HomePage.shown s = Page.Mounted st /\
              Page.Home.apiAvailable st = false) ->
  HomePage.checking (HomePage.react s e) = false /\
  (HomePage.shown (HomePage.react s e) = Page.Unmounted \/
   exists st, HomePage.shown (HomePage.react s e) = Page.Mounted st /\
              Page.Home.apiAvailable st = false) /\
  HomePage.requests (HomePage.react s e) = HomePage.requests s /\
  (HomePage.pending s = None -> HomePage.react s e = s).
Proof.
  intros Hchecked [Hshown|[st [Hshown Hoff]]].
  - rewrite (react_unmounted s e Hshown). repeat split; auto.
  - destruct e as [message start|r finish|get].
    + rewrite (react_submit s st message start Hshown), Hoff.
      rewrite andb_false_r. repeat split; eauto.
    + unfold HomePage.react. rewrite Hshown.
      destruct (HomePage.pending s) as [[loadingMessageId query]|] eqn:Hpending;
        [|repeat split; eauto; discriminate].
      simpl. split; [exact Hchecked|]. split; [|split; [reflexivity|]];
        [|discriminate].
      destruct (Page.unmounts r) eqn:Hunmounts.
      * left. now apply after_await_unmounts.
      * destruct (after_await_messages loadingMessageId query r finish st
                    Hunmounts)
          as [st' [final [Hpage [_ [_ [_ [_ Havailable]]]]]]].
        right. exists st'. split; [exact Hpage|].
        rewrite Havailable. destruct r; [exact Hoff | reflexivity].
    + unfold HomePage.react. rewrite Hshown, Hchecked.
      repeat split; eauto.
Qed.

Lemma run_from_requests_when_unavailable (events : list HomePage.event) :
  forall s : HomePage.session,
    HomePage.checking s = false ->
    (HomePage.shown s = Page.Unmounted \/
     exists st, HomePage.shown s = Page.Mounted st /\
                Page.Home.apiAvailable st = false) ->
    HomePage.requests (HomePage.run_from s events) = HomePage.requests s.
Proof.
  induction events as [|e events IH]; intros s Hchecked Hoff; [reflexivity|].
  destruct (react_when_unavailable s e Hchecked Hoff) as [H1 [H2 [H3 _]]].
  unfold HomePage.run_from in *. simpl. now rewrite IH.
Qed.

Lemma run_from_when_unavailable (events : list HomePage.event) :
  forall s : HomePage.session,
    HomePage.checking s = false ->
    HomePage.pending s = None ->
    (HomePage.shown s = Page.Unmounted \/
     exists st, HomePage.shown s = Page.Mounted st /\
                Page.Home.apiAvailable st = false) ->
    HomePage.run_from s events = s.
Proof.
  induction events as [|e events IH]; intros s Hchecked Hpending Hoff;
    [reflexivity|].
  destruct (react_when_unavailable s e Hchecked Hoff) as [_ [_ [_ Hsame]]].
  unfold HomePage.run_from in *. simpl. rewrite (Hsame Hpending).
  now apply IH.
Qed.

(** X14.  A request that throws marks the API unavailable and disables the
    chat input.  That lasts for good if the health check of the mount has
    settled by then: no later event changes the page.  If the health check
    is still on its way and succeeds afterwards, it marks the API available
    again. *)
Theorem thrown_request_disables_the_input :
  forall (s : HomePage.session) (st : Page.Home.state)
         (loadingMessageId query : text) (finish : Page.clock),
    HomePage.shown s = Page.Mounted st ->
    HomePage.pending s = Some (loadingMessageId, query) ->
    let s' := HomePage.react s (HomePage.ChatSettled Page.Threw finish) in
    (exists st',
       HomePage.shown s' = Page.Mounted st' /\
       Page.Home.apiAvailable st' = false /\
       forall message,
         ChatInput.onSendMessage_calls
           (ChatInput.handleSubmit (HomePage.chatInputProps st') message)
         = []) /\
    (HomePage.checking s = false ->
     forall events, HomePage.run_from s' events = s') /\
    (HomePage.checking s = true ->
     forall a, exists st'',
       HomePage.shown
         (HomePage.react s' (HomePage.HealthCheckSettled (Api.Fulfilled a)))
       = Page.Mounted st'' /\
       Page.Home.apiAvailable st'' = true).
Proof.
  intros s st loadingMessageId query finish Hshown Hpending s'.
  assert (Hs' : s' = {| HomePage.shown :=
                          Page.after_await loadingMessageId query Page.Threw
                            finish st;
                        HomePage.pending := None;
                        HomePage.checking := HomePage.checking s;
                        HomePage.requests := HomePage.requests s |}).
  { subst s'. unfold HomePage.react. now rewrite Hshown, Hpending. }
  split; [|split].
  - eexists. rewrite Hs'. simpl. split; [reflexivity|].
    split; [reflexivity|]. intros message.
    unfold ChatInput.handleSubmit, HomePage.chatInputProps. cbv zeta.
    simpl. now rewrite !orb_true_r.
  - intros Hchecked events. apply run_from_when_unavailable.
    + now rewrite Hs'.
    + now rewrite Hs'.
    + right. eexists. rewrite Hs'. simpl. split; reflexivity.
  - intros Hchecking a. rewrite Hs'. unfold HomePage.react. simpl.
    rewrite Hchecking. simpl. eexists. split; reflexivity.
Qed.

Lemma thrown_request_disables_the_input_witness :
  let start := {| Page.now := lit "1700000000000";
                  Page.iso := lit "2023-11-14T22:13:20.000Z" |} in
  let finish := {| Page.now := lit "1700000030000";
                   Page.iso := lit "2023-11-14T22:13:50.000Z" |} in
  let s := HomePage.run
             [HomePage.HealthCheckSettled (Api.Fulfilled (Api.Str (lit "ok")));
              HomePage.Submit (lit "Who is on duty?") start] in
  let s' := HomePage.react s (HomePage.ChatSettled Page.Threw finish) in
  HomePage.checking s = false /\
  forall events, HomePage.run_from s' events = s'.
Proof.
  intros start finish s s'. split; [reflexivity|].
  refine (proj1 (proj2
    (thrown_request_disables_the_input s
       (Page.before_await
          {| Page.Home.messages := []; Page.Home.isLoading := false;
             Page.Home.apiAvailable := true |}
          (lit "Who is on duty?") start)
       (Page.now start) (lit "Who is on duty?") finish _ _)) _).
  - vm_compute. reflexivity.
  - vm_compute. reflexivity.
  - reflexivity.
Defined.

(** X15.  A rejected health check stops the requests from then on: whatever
    happens afterwards, no further query is passed to [sendChatMessage].
    When it is rejected before anything else happens, the page stays as it
    was mounted, with no message, the API marked unavailable.  A non-blank
    message submitted before the check settles is sent all the same, the
    page being mounted with the API marked available. *)
Theorem failed_health_check_stops_requests :
  forall e : Api.failure,
    (forall (s : HomePage.session) (events : list HomePage.event),
       HomePage.checking s = true ->
       HomePage.requests
         (HomePage.run_from
            (HomePage.react s
               (HomePage.HealthCheckSettled (Api.RejectedWith e)))
            events)
       = HomePage.requests s) /\
    (forall events : list HomePage.event,
       HomePage.run
         (HomePage.HealthCheckSettled (Api.RejectedWith e) :: events)
       = {| HomePage.shown :=
              Page.Mounted
                {| Page.Home.messages := []; Page.Home.isLoading := false;
                   Page.Home.apiAvailable := false |};
            HomePage.pending := None;
            HomePage.checking := false;
            HomePage.requests := [] |}) /\
    (forall (message : text) (start : Page.clock),
       trim message <> [] ->
       HomePage.requests
         (HomePage.run
            [HomePage.Submit message start;
             HomePage.HealthCheckSettled (Api.RejectedWith e)])
       = [trim message]).
Proof.
  intros e. split; [|split].
  - intros s events Hchecking.
    destruct (HomePage.shown s) as [st|] eqn:Hshown.
    + assert (Hs' : HomePage.react s
                      (HomePage.HealthCheckSettled (Api.RejectedWith e))
                    = {| HomePage.shown :=
                           Page.Mounted
                             (HomePage.checkApiAvailability
                                (@Api.RejectedWith Api.body e) st);
                         HomePage.pending := HomePage.pending s;
                         HomePage.checking := false;
                         HomePage.requests := HomePage.requests s |}).
      { unfold HomePage.react. now rewrite Hshown, Hchecking. }
      rewrite Hs'. rewrite run_from_requests_when_unavailable;
        [reflexivity | reflexivity|].
      right. eexists. split; reflexivity.
    + rewrite (react_unmounted s _ Hshown).
      assert (Hfrozen : forall events', HomePage.run_from s events' = s).
      { induction events' as [|e' events' IH]; [reflexivity|].
        unfold HomePage.run_from in *. simpl.
        now rewrite (react_unmounted s e' Hshown). }
      now rewrite Hfrozen.
  - intros events. unfold HomePage.run, HomePage.run_from. simpl.
    apply (run_from_when_unavailable events); try reflexivity.
    right. eexists. split; reflexivity.
  - intros message start Hmessage. apply truthy_true in Hmessage.
    unfold HomePage.run, HomePage.run_from. simpl.
    rewrite (react_submit HomePage.mounted HomePage.initial message start
               eq_refl).
    simpl. rewrite Hmessage. reflexivity.
Qed.

(** ** What holds of the page after any events *)





(* ================================================================== *)
(** ** The status indicator *)

Lemma text_eqb_true_iff (a b : text) : Page.text_eqb a b = true <-> a = b.
Proof.
  unfold Page.text_eqb. destruct (list_eq_dec N.eq_dec a b); split;
    congruence.
Qed.

Lemma positive_iff (x : Q) : negb (Qle_bool x 0) = true <-> (0 < x)%Q.
Proof.
  rewrite negb_true_iff. split.
  - intros H. apply Qnot_le_lt. intros Hle. apply Qle_bool_iff in Hle.
    congruence.
  - intros H. destruct (Qle_bool x 0) eqn:E; [|reflexivity].
    apply Qle_bool_iff in E. exfalso. exact (Qlt_not_le _ _ H E).
Qed.

(** X17.  The status indicator after a check, whatever it showed before and
    whatever body the status request brought: it no longer says that it is
    checking; it says that the API is offline exactly when the request
    failed; it says that the system is online exactly when the body is a
    status with data, the vector store is healthy and holds a document; on
    a body that is no object it says that the status is unknown.  When the
    next check starts, the indicator goes back to checking if the API is
    offline or the body stored is falsy ([null], an empty body), and stays
    as it is otherwise. *)
Theorem checkStatus_view :
  forall (get : Api.settled (ApiService.received ApiService.SystemStatus))
         (st : StatusIndicator.state),
    let st' := StatusIndicator.checkStatus get st in
    StatusIndicator.render st' <> StatusIndicator.CheckingSystemStatus /\
    (StatusIndicator.render st' = StatusIndicator.ApiOffline <->
     exists e, get = Api.RejectedWith e) /\
    (forall d,
       StatusIndicator.render st' = StatusIndicator.SystemOnline d <->
       exists s, get = Api.Fulfilled (ApiService.ObjectValue s) /\
                 ApiService.data s = Some d /\
                 ApiService.vector_store_status d = lit "healthy" /\
                 (0 < ApiService.total_documents d)%Q) /\
    (forall v, get = Api.Fulfilled v ->
               (forall s, v <> ApiService.ObjectValue s) ->
               StatusIndicator.render st' = StatusIndicator.StatusUnknown) /\
    StatusIndicator.render (StatusIndicator.checking st')
    = match get with
      | Api.Fulfilled v =>
          if ApiService.truthy_received v then StatusIndicator.render st'
          else StatusIndicator.CheckingSystemStatus
      | Api.RejectedWith _ => StatusIndicator.CheckingSystemStatus
      end.
Proof.
  intros get st st'. subst st'.
  destruct get as [v|e].
  - assert (Hprimitive :
              (forall s, v <> ApiService.ObjectValue s) ->
              StatusIndicator.render (StatusIndicator.checkStatus
                                        (Api.Fulfilled v) st)
              = StatusIndicator.StatusUnknown /\
              StatusIndicator.render
                (StatusIndicator.checking
                   (StatusIndicator.checkStatus (Api.Fulfilled v) st))
              = if ApiService.truthy_received v
                then StatusIndicator.StatusUnknown
                else StatusIndicator.CheckingSystemStatus).
    { intros Hv. unfold StatusIndicator.checkStatus, StatusIndicator.render.
      simpl. destruct v as [| |b|n|s|s]; simpl;
        try (split; reflexivity);
        try (destruct (ApiService.truthy_received _); split; reflexivity).
      - destruct b; split; reflexivity.
      - destruct (Num.truthy_number n); split; reflexivity.
      - destruct (truthy s); split; reflexivity.
      - now contradiction (Hv s). }
    destruct v as [| |b|n|x|[status [d|] timestamp]].
    6: {
      unfold StatusIndicator.checkStatus, StatusIndicator.render; simpl.
      destruct (Page.text_eqb (ApiService.vector_store_status d)
                  (lit "healthy")) eqn:Hhealthy;
        destruct (negb (Qle_bool (ApiService.total_documents d) 0)) eqn:Hdocs;
        simpl; (split; [discriminate|]);
        (split; [split; [discriminate | intros [e He]; discriminate He]|]);
        (split; [|split; [|reflexivity]]);
        try (intros v Hv Hno; injection Hv as <-;
             now contradiction (Hno {| ApiService.status := status;
                                       ApiService.data := Some d;
                                       ApiService.timestamp := timestamp |}));
        intros d'; split.
      + intros H. injection H as <-.
        exists {| ApiService.status := status; ApiService.data := Some d;
                  ApiService.timestamp := timestamp |}.
        repeat split; [now apply text_eqb_true_iff | now apply positive_iff].
      + intros [s [Hs [Hd _]]]. injection Hs as <-. simpl in Hd.
        now injection Hd as <-.
      + discriminate.
      + intros [s [Hs [Hd [_ Hpos]]]]. injection Hs as <-. simpl in Hd.
        injection Hd as <-. apply positive_iff in Hpos. congruence.
      + discriminate.
      + intros [s [Hs [Hd [Hh _]]]]. injection Hs as <-. simpl in Hd.
        injection Hd as <-. apply text_eqb_true_iff in Hh. congruence.
      + discriminate.
      + intros [s [Hs [Hd [Hh _]]]]. injection Hs as <-. simpl in Hd.
        injection Hd as <-. apply text_eqb_true_iff in Hh. congruence. }
    6: {
      unfold StatusIndicator.checkStatus, StatusIndicator.render; simpl.
      split; [discriminate|].
      split; [split; [discriminate | intros [e He]; discriminate He]|].
      split; [|split; [|reflexivity]].
      - intros d; split; [discriminate|].
        intros [s [Hs [Hd _]]]. injection Hs as <-. discriminate Hd.
      - intros v Hv Hno. injection Hv as <-.
        now contradiction (Hno {| ApiService.status := status;
                                  ApiService.data := None;
                                  ApiService.timestamp := timestamp |}). }
    all: destruct Hprimitive as [Hunknown Hnext]; [intros s; discriminate|];
      rewrite Hnext, Hunknown;
      (split; [discriminate|]);
      (split; [split; [discriminate | intros [e He]; discriminate He]|]);
      (split; [intros d; split; [discriminate|];
               intros [s [Hs _]]; discriminate Hs|]);
      (split; [intros; reflexivity|]);
      destruct (ApiService.truthy_received _); reflexivity.
  - unfold StatusIndicator.checkStatus, StatusIndicator.render; simpl.
    split; [discriminate|].
    split; [split; [intros _; now exists e | reflexivity]|].
    split; [intros d; split; [discriminate|];
            intros [s [Hs _]]; discriminate Hs|].
    split; [|reflexivity]. intros v Hv. discriminate Hv.
Qed.

(** ** The feedback buttons of a message *)

Section FeedbackInvariant.
Variable p : MessageFeedback.props.

Lemma feedback_invariant_initial :
  MessageFeedback.invariant p MessageFeedback.initial.
Proof.
  unfold MessageFeedback.invariant. simpl. repeat split; try constructor;
    try discriminate.
  intros [H|H]; [discriminate H | now contradiction H].
Qed.

Lemma sendFeedback_start_invariant (r : ApiService.Rating)
  (comment : option text) (st : MessageFeedback.state) :
  (r = ApiService.thumbs_up -> comment = None) ->
  MessageFeedback.feedback st <> None ->
  MessageFeedback.invariant p st ->
  MessageFeedback.invariant p (MessageFeedback.sendFeedback_start p r comment st).
Proof.
  intros Hup Hrated [Hreq [Hsent [Hfly Hform]]].
  unfold MessageFeedback.invariant. simpl. split; [|split; [|split]].
  - apply Forall_app. split; [exact Hreq|]. constructor; [|constructor].
    simpl. repeat split. intros Hr. now rewrite (Hup Hr).
  - exact Hsent.
  - rewrite length_app. simpl. lia.
  - intros _. exact Hrated.
Qed.

Lemma react_invariant (st : MessageFeedback.state)
  (e : MessageFeedback.event) :
  MessageFeedback.invariant p st -> MessageFeedback.invariant p (MessageFeedback.react p st e).
Proof.
  intros Hinv. unfold MessageFeedback.react.
  destruct (MessageFeedback.possible st e) eqn:Hpossible; simpl;
    [|exact Hinv].
  destruct e as [r|c| | |ok|]; simpl in Hpossible.
  - unfold MessageFeedback.handleFeedback.
    apply negb_true_iff in Hpossible. rewrite Hpossible.
    destruct r.
    + apply sendFeedback_start_invariant; [reflexivity | discriminate|].
      destruct Hinv as [Hreq [Hsent [Hfly Hform]]].
      unfold MessageFeedback.invariant. simpl.
      repeat split; try assumption; try (now apply Hsent); discriminate.
    + destruct Hinv as [Hreq [Hsent [Hfly Hform]]].
      unfold MessageFeedback.invariant. simpl.
      repeat split; try assumption; try congruence; discriminate.
  - exact Hinv.
  - destruct Hinv as [Hreq [Hsent [Hfly Hform]]].
    unfold MessageFeedback.invariant. simpl.
    split; [exact Hreq|]. split; [|split; [exact Hfly|]].
    + intros H. split; [reflexivity | now apply Hsent].
    + intros [H|H]; [discriminate H|]. apply Hform. now right.
  - apply sendFeedback_start_invariant; [discriminate| |exact Hinv].
    destruct Hinv as [_ [_ [_ Hform]]]. apply Hform. now left.
  - destruct Hinv as [Hreq [Hsent [Hfly Hform]]].
    unfold MessageFeedback.sendFeedback_settled, MessageFeedback.invariant.
    destruct ok; simpl.
    + split; [exact Hreq|]. split; [intros _; split; [reflexivity | lia]|].
      split; [lia|]. intros [H|H]; [discriminate H|]. apply Hform. now right.
    + split; [exact Hreq|]. split; [exact Hsent|]. split; [lia | exact Hform].
  - destruct Hinv as [Hreq [Hsent [Hfly Hform]]].
    unfold MessageFeedback.invariant. simpl.
    split; [exact Hreq|]. split; [discriminate|]. split; assumption.
Qed.

Lemma run_invariant (events : list MessageFeedback.event) :
  forall st, MessageFeedback.invariant p st ->
             MessageFeedback.invariant p (fold_left (MessageFeedback.react p) events st).
Proof.
  induction events as [|e events IH]; intros st Hinv; [exact Hinv|].
  simpl. apply IH. now apply react_invariant.
Qed.

End FeedbackInvariant.

(** X18.  The feedback buttons of a message, after any sequence of clicks,
    typing, settled requests and fired timers: every feedback request
    carries the query and the answer of the message, and a thumbs-up request
    an empty comment; while the note of thanks is shown the form is closed
    and a timer is pending that will hide the note; no more requests are in
    flight than were made; and the form is open or a request was made only
    after a rating was chosen. *)
Theorem feedback_after_any_events :
  forall (p : MessageFeedback.props) (events : list MessageFeedback.event),
    let st := MessageFeedback.run p events in
    Forall (fun f => ApiService.query f = MessageFeedback.query p /\
                     ApiService.answer f = MessageFeedback.answer p /\
                     (ApiService.rating f = ApiService.thumbs_up ->
                      ApiService.comment f = []))
           (MessageFeedback.requests st) /\
    (MessageFeedback.feedbackSent st = true ->
     MessageFeedback.showFeedbackForm st = false /\
     (0 < MessageFeedback.timers st)%nat) /\
    (MessageFeedback.in_flight st
     <= length (MessageFeedback.requests st))%nat /\
    (MessageFeedback.showFeedbackForm st = true \/
     MessageFeedback.requests st <> [] ->
     MessageFeedback.feedback st <> None).
Proof.
  intros p events.
  exact (run_invariant p events _ (feedback_invariant_initial p)).
Qed.

(* ================================================================== *)
(** ** From the request to the page *)



(* ================================================================== *)
(** ** Chunks are filled greedily *)

Section GreedyGroups.
Import PDFProcessor.
Variable chunk_size : Z.

Lemma each_fitted_one (sentence : text) :
  Chunking.each_fitted chunk_size [sentence].
Proof.
  intros before s after Heq Hne. exfalso.
  destruct before as [|b before]; [now apply Hne|].
  destruct before; discriminate Heq.
Qed.

Lemma each_fitted_snoc (pending : list text) (sentence : text) :
  Chunking.each_fitted chunk_size pending -> pending <> [] ->
  len (Chunking.joined pending) + len sentence < chunk_size ->
  Chunking.each_fitted chunk_size (pending ++ [sentence]).
Proof.
  intros Hfitted Hne Hfits before s after Heq Hbefore.
  destruct (exists_last (l := s :: after)) as [front [y Hfront]];
    [discriminate|].
  destruct front as [|f front].
  - simpl in Hfront. injection Hfront as -> ->.
    apply app_inj_tail in Heq. destruct Heq as [<- <-]. exact Hfits.
  - simpl in Hfront. injection Hfront as <- ->.
    rewrite app_comm_cons, app_assoc in Heq.
    apply app_inj_tail in Heq. destruct Heq as [Heq _].
    exact (Hfitted before s front Heq Hbefore).
Qed.

Lemma none_fits_next_few (groups : list (list text)) :
  (length groups <= 1)%nat -> Chunking.none_fits_next chunk_size groups.
Proof.
  intros Hlen earlier group sentence rest later Heq. exfalso.
  rewrite Heq, length_app in Hlen. simpl in Hlen. lia.
Qed.

Lemma none_fits_next_grow (groups : list (list text)) (pending : list text)
  (sentence : text) :
  Chunking.none_fits_next chunk_size (groups ++ [pending]) -> pending <> [] ->
  Chunking.none_fits_next chunk_size (groups ++ [pending ++ [sentence]]).
Proof.
  intros Hclosed Hne earlier group s rest later Heq.
  destruct later as [|l later] using rev_ind.
  - change (earlier ++ [group; s :: rest])
      with (earlier ++ [group] ++ [s :: rest]) in Heq.
    rewrite app_assoc in Heq. apply app_inj_tail in Heq.
    destruct Heq as [Hgroups Hlast].
    destruct pending as [|p pending]; [now contradiction Hne|].
    simpl in Hlast. injection Hlast as <- _.
    apply (Hclosed earlier group p pending []).
    rewrite Hgroups, <- app_assoc. reflexivity.
  - clear IHlater.
    change (earlier ++ group :: (s :: rest) :: later ++ [l])
      with (earlier ++ (group :: (s :: rest) :: later) ++ [l]) in Heq.
    rewrite app_assoc in Heq. apply app_inj_tail in Heq.
    destruct Heq as [Hgroups _].
    apply (Hclosed earlier group s rest (later ++ [pending])).
    rewrite Hgroups, <- app_assoc. reflexivity.
Qed.

Lemma none_fits_next_new (groups : list (list text)) (pending : list text)
  (sentence : text) :
  Chunking.none_fits_next chunk_size (groups ++ [pending]) ->
  chunk_size <= len (Chunking.joined pending) + len sentence ->
  Chunking.none_fits_next chunk_size ((groups ++ [pending]) ++ [[sentence]]).
Proof.
  intros Hclosed Hfull earlier group s rest later Heq.
  destruct later as [|l later] using rev_ind.
  - change (earlier ++ [group; s :: rest])
      with (earlier ++ [group] ++ [s :: rest]) in Heq.
    rewrite app_assoc in Heq. apply app_inj_tail in Heq.
    destruct Heq as [Hgroups Hlast]. injection Hlast as <- _.
    apply app_inj_tail in Hgroups. destruct Hgroups as [_ <-]. exact Hfull.
  - clear IHlater.
    change (earlier ++ group :: (s :: rest) :: later ++ [l])
      with (earlier ++ (group :: (s :: rest) :: later) ++ [l]) in Heq.
    rewrite app_assoc in Heq. apply app_inj_tail in Heq.
    destruct Heq as [Hgroups _].
    exact (Hclosed earlier group s rest later Hgroups).
Qed.

Lemma loop_body_greedy (st : loop_state) (sentence : text)
  (groups : list (list text)) :
  Chunking.in_step st groups ->
  Forall (Chunking.each_fitted chunk_size) groups ->
  Chunking.none_fits_next chunk_size groups ->
  exists groups',
    concat groups' = concat groups ++ [sentence] /\
    Chunking.in_step (loop_body chunk_size st sentence) groups' /\
    Forall (Chunking.each_fitted chunk_size) groups' /\
    Chunking.none_fits_next chunk_size groups'.
Proof.
  intros Hstep Hfitted Hclosed. unfold loop_body.
  destruct Hstep as [[-> [Hc Hp]]|[made [pending [-> [Hne [Hc Hp]]]]]].
  - exists [[sentence]]. split; [reflexivity|].
    split; [|split; [repeat constructor; apply each_fitted_one
                    | apply none_fits_next_few; simpl; lia]].
    right. exists [], [sentence]. rewrite Hp.
    destruct (len [] + len sentence <? chunk_size); simpl;
      repeat split; try discriminate; try assumption;
      now rewrite ?joined_one.
  - destruct (len (current_chunk st) + len sentence <? chunk_size) eqn:Hfits;
      simpl.
    + apply Z.ltb_lt in Hfits. rewrite Hp in Hfits.
      exists (made ++ [pending ++ [sentence]]). split; [|split; [|split]].
      * rewrite !concat_app. cbn [concat]. rewrite !app_nil_r.
        now rewrite app_assoc.
      * right. exists made, (pending ++ [sentence]).
        repeat split; try assumption.
        -- intros H. now apply app_eq_nil in H.
        -- now rewrite joined_app, joined_one, Hp.
      * apply Forall_app in Hfitted. destruct Hfitted as [Hmade Hpending].
        apply Forall_app. split; [exact Hmade|].
        constructor; [|constructor].
        apply each_fitted_snoc; try assumption. now inversion Hpending.
      * now apply none_fits_next_grow.
    + apply Z.ltb_ge in Hfits. rewrite Hp in Hfits.
      assert (Ht : truthy (current_chunk st) = true).
      { apply truthy_true. rewrite Hp. intros H.
        apply joined_nil_iff in H. now apply Hne. }
      rewrite Ht.
      exists ((made ++ [pending]) ++ [[sentence]]). split; [|split; [|split]].
      * rewrite concat_app. cbn [concat]. now rewrite app_nil_r.
      * right. exists (made ++ [pending]), [sentence].
        repeat split; try discriminate.
        -- unfold flush. now rewrite map_app, Hc, Hp.
        -- now rewrite joined_one.
      * apply Forall_app. split; [exact Hfitted|].
        constructor; [apply each_fitted_one | constructor].
      * now apply none_fits_next_new.
Qed.

Lemma loop_greedy (rest : list text) :
  forall (st : loop_state) (groups : list (list text)),
    Chunking.in_step st groups ->
    Forall (Chunking.each_fitted chunk_size) groups ->
    Chunking.none_fits_next chunk_size groups ->
    exists groups',
      concat groups' = concat groups ++ rest /\
      Chunking.in_step (fold_left (loop_body chunk_size) rest st) groups' /\
      Forall (Chunking.each_fitted chunk_size) groups' /\
      Chunking.none_fits_next chunk_size groups'.
Proof.
  induction rest as [|sentence rest IH]; intros st groups Hstep Hfitted Hclosed;
    simpl.
  - exists groups. now rewrite app_nil_r.
  - destruct (loop_body_greedy st sentence groups Hstep Hfitted Hclosed)
      as [groups1 [Hcat1 [Hstep1 [Hfitted1 Hclosed1]]]].
    destruct (IH _ groups1 Hstep1 Hfitted1 Hclosed1)
      as [groups' [Hcat H]].
    exists groups'. split; [|exact H].
    rewrite Hcat, Hcat1, <- app_assoc. reflexivity.
Qed.

End GreedyGroups.

(** The groups behind the chunks of [chunk_sentences]. *)
Lemma chunk_sentences_greedy (chunk_size : Z) (sentences : list text)
  (overlap : Z) :
  exists groups : list (list text),
    concat groups = sentences /\
    PDFProcessor.chunk_sentences sentences chunk_size overlap
      = map (fun group => strip (Chunking.joined group)) groups /\
    Forall (Chunking.each_fitted chunk_size) groups /\
    Chunking.none_fits_next chunk_size groups.
Proof.
  unfold PDFProcessor.chunk_sentences. cbv zeta.
  destruct (loop_greedy chunk_size sentences PDFProcessor.initial [])
    as [groups [Hcat [Hstep [Hfitted Hclosed]]]].
  - left. repeat split.
  - constructor.
  - apply none_fits_next_few. simpl. lia.
  - exists groups. split; [exact Hcat|]. split; [|split; assumption].
    destruct Hstep as [[-> [Hc Hp]]|[made [pending [-> [Hne [Hc Hp]]]]]].
    + rewrite Hp. simpl. exact Hc.
    + assert (Ht : truthy (PDFProcessor.current_chunk
                             (fold_left (PDFProcessor.loop_body chunk_size)
                                sentences PDFProcessor.initial)) = true).
      { apply truthy_true. rewrite Hp. intros H.
        apply joined_nil_iff in H. now apply Hne. }
      rewrite Ht. unfold PDFProcessor.flush.
      rewrite map_app, Hc, Hp. reflexivity.
Qed.

(** X20.  [chunk_text] fills its chunks greedily: the groups of sentences
    behind the chunks are such that every sentence of a group but the first
    fitted when it was added (the pending text and the sentence were shorter
    than [chunk_size]), and no group could take the first sentence of the
    next one. *)
Theorem chunk_text_is_greedy :
  forall (split_into_sentences : text -> list text) (txt : text)
         (chunk_size overlap : Z),
    exists groups : list (list text),
      concat groups = split_into_sentences txt /\
      PDFProcessor.chunk_text split_into_sentences txt chunk_size overlap
        = map (fun group => strip (Chunking.joined group)) groups /\
      Forall (Chunking.each_fitted chunk_size) groups /\
      Chunking.none_fits_next chunk_size groups.
Proof.
  intros split_into_sentences txt chunk_size overlap.
  unfold PDFProcessor.chunk_text.
  apply chunk_sentences_greedy.
Qed.

(** A sentence of [chunk_size] characters or more shares its group with no
    other. *)
Lemma oversized_sentence_alone (chunk_size : Z) (group : list text)
  (sentence : text) :
  Chunking.each_fitted chunk_size group ->
  In sentence group -> chunk_size <= len sentence ->
  group = [sentence].
Proof.
  intros Hfitted Hin Hlong.
  apply in_split in Hin. destruct Hin as [before [after Heq]].
  destruct before as [|b before].
  - destruct after as [|next after]; [exact Heq|]. exfalso.
    assert (H : len (Chunking.joined [sentence]) + len next < chunk_size).
    { apply (Hfitted [sentence] next after); [exact Heq | discriminate]. }
    rewrite joined_one, len_app in H. change (len (lit " ")) with 1 in H.
    pose proof (len_nonneg next). lia.
  - exfalso.
    assert (H : len (Chunking.joined (b :: before)) + len sentence
                < chunk_size).
    { apply (Hfitted (b :: before) sentence after); [exact Heq | discriminate]. }
    pose proof (len_nonneg (Chunking.joined (b :: before))). lia.
Qed.

(** C2, amended.  Every chunk [chunk_text] produces has at most [chunk_size]
    characters, or is a single sentence longer than [chunk_size] with the
    whitespace at its ends stripped, which is the sentence unmodified when
    it has none.  No sentence is split, and a sentence of [chunk_size]
    characters or more is always a chunk of its own: in the division of the
    sentences into the groups behind the chunks it is alone in its group,
    whose chunk is the sentence stripped. *)
Theorem chunk_text_within_size_or_one_stripped_sentence :
  forall (split_into_sentences : text -> list text) (txt : text)
         (chunk_size overlap : Z),
    Forall
      (fun chunk =>
         len chunk <= chunk_size \/
         exists sentence,
           In sentence (split_into_sentences txt) /\
           chunk_size < len sentence /\
           chunk = strip sentence /\
           (stripped sentence -> chunk = sentence))
      (PDFProcessor.chunk_text split_into_sentences txt chunk_size overlap) /\
    exists groups : list (list text),
      concat groups = split_into_sentences txt /\
      PDFProcessor.chunk_text split_into_sentences txt chunk_size overlap
        = map (fun group => strip (Chunking.joined group)) groups /\
      forall group sentence,
        In group groups -> In sentence group ->
        chunk_size <= len sentence ->
        group = [sentence] /\
        strip (Chunking.joined group) = strip sentence.
Proof.
  intros split_into_sentences txt chunk_size overlap. split.
  - exact (chunk_text_chunks_allowed split_into_sentences txt chunk_size
             overlap).
  - unfold PDFProcessor.chunk_text.
    destruct (chunk_sentences_greedy chunk_size (split_into_sentences txt)
                overlap)
      as [groups [Hcat [Hchunks [Hfitted _]]]].
    exists groups. split; [exact Hcat|]. split; [exact Hchunks|].
    intros group sentence Hgroup Hin Hlong.
    assert (Halone : group = [sentence]).
    { apply (oversized_sentence_alone chunk_size); try assumption.
      exact (proj1 (Forall_forall _ _) Hfitted group Hgroup). }
    split; [exact Halone|]. rewrite Halone, joined_one.
    apply strip_sentence_space.
Qed.
